(** * CurvedPipe: a curved, pressurised, thermally loaded pipe element

    Shallow embedding of SRC/element/pipe/CurvedPipe.cpp.

    Numbers.  The element computes with C++ [double]; here every [double]
    is read as a real number (Stdlib [R]) and every floating-point
    operation as the exact operation on reals, so [sin], [cos], [asin],
    [sqrt] and [fabs] are the real functions.  Rounding, overflow, NaN and
    infinities are outside this model.  Comparisons of the source
    ([<=], [>], [!=]) are the decision procedures of [R].

    Objects.  The element is a record of the members the source reads and
    writes; a member function that mutates the element takes the record
    and returns the new one next to its result.  An [int] status result
    that is only tested with [< 0] is kept as a [Z]; a function whose
    out-parameters are meaningful only on success returns an [option].

    Collaborators.  The vector and matrix classes, the coordinate
    transformation, the pipe section and the base class [Pipe] are not
    part of the element.  Vectors and matrices are lists with the
    operations the element calls; the transformation and the section are
    records of the methods and accessors it calls; the three methods of
    [Pipe] it calls are the fields of a class, so every statement holds
    for whatever they do. *)

From Stdlib Require Import Reals Lra Lia List ZArith.
From Stdlib Require Import Classical ClassicalEpsilon.
From Stdlib Require String.
Import String.StringSyntax.
Import ListNotations.
Local Open Scope R_scope.

(** ** Vectors and matrices *)

Module LinAlg.

(** Modelled from the spec: the classes [Vector] and [Matrix] are not
    among the sources; the element uses them through the operations
    below, which the spec names by their results (fb = bx^T fs bx,
    ubno = bx^T fs Spx, weighted sums, load = - stiffness * deformation).
    A [Vector] is the list of its entries, a [Matrix] the list of its
    rows.  [vget v i] is [v(i)], [mget m i j] is [m(i, j)]. *)
Abbreviation Vector := (list R).
Abbreviation Matrix := (list (list R)).

Definition vget (v : Vector) (i : nat) : R := nth i v 0.
Definition mget (m : Matrix) (i j : nat) : R := nth j (nth i m []) 0.

Fixpoint set_nth {X : Type} (l : list X) (i : nat) (x : X) : list X :=
  match l, i with
  | [], _ => []
  | _ :: t, O => x :: t
  | h :: t, S i' => h :: set_nth t i' x
  end.

(** [v(i) = x] and [m(i, j) = x]; the source only writes inside the
    bounds, outside them the model leaves the object unchanged. *)
Definition vset (v : Vector) (i : nat) (x : R) : Vector := set_nth v i x.
Definition mset (m : Matrix) (i j : nat) (x : R) : Matrix :=
  set_nth m i (set_nth (nth i m []) j x).

(** [resize(n)] followed by [Zero()]. *)
Definition vZero (n : nat) : Vector := repeat 0 n.
Definition mZero (r c : nat) : Matrix := repeat (repeat 0 c) r.

(** [Zero()] on an object that keeps its size. *)
Definition Zero_v (v : Vector) : Vector := map (fun _ => 0) v.
Definition Zero_m (m : Matrix) : Matrix := map Zero_v m.

Fixpoint zipWith {X Y Z : Type} (f : X -> Y -> Z)
  (l : list X) (l' : list Y) : list Z :=
  match l, l' with
  | x :: t, y :: t' => f x y :: zipWith f t t'
  | _, _ => []
  end.

Definition Rsum (l : list R) : R := fold_right Rplus 0 l.

Definition dot (u v : Vector) : R := Rsum (zipWith Rmult u v).

Definition vsub (u v : Vector) : Vector := zipWith Rminus u v.
Definition vadd (u v : Vector) : Vector := zipWith Rplus u v.

(** Modelled from the spec: [Vector::Norm], the Euclidean norm, by which
    the geometry solver takes the distance from the center to a node. *)
Definition Norm (v : Vector) : R := sqrt (dot v v).

(** [v *= a] and [m *= a]. *)
Definition vscale (v : Vector) (a : R) : Vector := map (fun x => x * a) v.
Definition mscale (m : Matrix) (a : R) : Matrix := map (fun r => vscale r a) m.

Definition mcols (m : Matrix) : nat := length (hd [] m).
Definition column (m : Matrix) (j : nat) : Vector := map (fun r => nth j r 0) m.
Definition transpose (m : Matrix) : Matrix :=
  map (column m) (seq 0 (mcols m)).

Definition mvmul (m : Matrix) (v : Vector) : Vector :=
  map (fun r => dot r v) m.
Definition mmul (a b : Matrix) : Matrix :=
  map (fun r => map (fun j => dot r (column b j)) (seq 0 (mcols b))) a.

Definition identity (n : nat) : Matrix :=
  map (fun i => map (fun j => if Nat.eqb i j then 1 else 0) (seq 0 n)) (seq 0 n).

(** Modelled from the spec: [this.addVector(thisFact, other, otherFact)],
    by which the integrator accumulates its weighted sum:
    this = thisFact * this + otherFact * other. *)
Definition addVector (this : Vector) (thisFact : R) (other : Vector)
  (otherFact : R) : Vector :=
  zipWith (fun x y => thisFact * x + otherFact * y) this other.

(** Modelled from the spec: [this.addMatrix(thisFact, other, otherFact)],
    the same accumulation on matrices:
    this = thisFact * this + otherFact * other. *)
Definition addMatrix (this : Matrix) (thisFact : R) (other : Matrix)
  (otherFact : R) : Matrix :=
  zipWith (fun r r' => addVector r thisFact r' otherFact) this other.

(** Modelled from the spec: [this.addMatrixVector(thisFact, m, v,
    otherFact)], the product of a matrix and a vector:
    this = thisFact * this + otherFact * m * v. *)
Definition addMatrixVector (this : Vector) (thisFact : R) (m : Matrix)
  (v : Vector) (otherFact : R) : Vector :=
  addVector this thisFact (mvmul m v) otherFact.

(** Modelled from the spec: [this.addMatrixTransposeVector(thisFact, m,
    v, otherFact)], the product of a transposed matrix and a vector:
    this = thisFact * this + otherFact * m^T * v. *)
Definition addMatrixTransposeVector (this : Vector) (thisFact : R)
  (m : Matrix) (v : Vector) (otherFact : R) : Vector :=
  addVector this thisFact (mvmul (transpose m) v) otherFact.

(** Modelled from the spec: [this.addMatrixTripleProduct(thisFact, T, B,
    otherFact)], the triple product of fb = bx^T fs bx:
    this = thisFact * this + otherFact * T^T * B * T. *)
Definition addMatrixTripleProduct (this : Matrix) (thisFact : R)
  (T B : Matrix) (otherFact : R) : Matrix :=
  addMatrix this thisFact (mmul (transpose T) (mmul B T)) otherFact.

(** Shape of an [r] by [c] matrix. *)
Definition shape (r c : nat) (m : Matrix) : Prop :=
  length m = r /\ Forall (fun row => length row = c) m.

Definition is_inverse (a k : Matrix) : Prop :=
  shape (length a) (length a) k /\
  mmul a k = identity (length a) /\ mmul k a = identity (length a).

Definition singular (a : Matrix) : Prop := ~ exists k, is_inverse a k.

(** Modelled from the spec: [Matrix::Invert] belongs to the matrix class,
    which is not among the sources.  The spec has it produce the inverse
    of the matrix and fail on a singular one; the model returns an inverse
    when one exists and [None] (the negative status) otherwise. *)
Definition Invert (a : Matrix) : option Matrix :=
  match excluded_middle_informative (exists k, is_inverse a k) with
  | left ex => Some (proj1_sig (constructive_indefinite_description _ ex))
  | right _ => None
  end.

End LinAlg.
Import LinAlg.

(** ** The collaborators of the element *)

(** The pipe section, through the accessors the element calls. *)
Record PipeSection := {
  DOUT : R;    (* outer diameter *)
  WALL : R;    (* wall thickness *)
  ALFAV : R    (* shear-correction factor *)
}.

(** The coordinate transformation, through the methods the element
    calls.  Their bodies are not among the sources: an element carries
    the length, the trial displacement and the three assembling functions
    of its transformation, whatever they are. *)
Record CrdTransf := {
  getInitialLength : R;
  getBasicTrialDisp : Vector;
  getGlobalStiffMatrix : Matrix -> Vector -> Matrix;
  getInitialGlobalStiffMatrix : Matrix -> Matrix;
  getGlobalResistingForce : Vector -> Vector -> Vector
}.

Record Node := { getCrds : Vector }.

(** ** The element *)

Record CurvedPipe := {
  (* ElasticBeam3d *)
  A : R; E : R; G : R; Jx : R; Iy : R; Iz : R;
  rho : R;
  wx : R; wy : R; wz : R;
  Q : Vector;
  q : Vector;
  K : Matrix;
  P : Vector;
  theNodes : Node * Node;
  theCoordTransf : CrdTransf;
  (* Pipe *)
  theSect : PipeSection;
  alp : R;
  nu : R;
  pressure : R;
  (* CurvedPipe *)
  center : Vector;
  radius : R;
  theta0 : R;
  tolWall : R
}.

Definition set_radius (st : CurvedPipe) (x : R) : CurvedPipe :=
  {| A := A st; E := E st; G := G st; Jx := Jx st; Iy := Iy st; Iz := Iz st;
     rho := rho st; wx := wx st; wy := wy st; wz := wz st; Q := Q st;
     q := q st; K := K st; P := P st; theNodes := theNodes st;
     theCoordTransf := theCoordTransf st; theSect := theSect st;
     alp := alp st; nu := nu st; pressure := pressure st;
     center := center st; radius := x; theta0 := theta0 st;
     tolWall := tolWall st |}.

Definition set_theta0 (st : CurvedPipe) (x : R) : CurvedPipe :=
  {| A := A st; E := E st; G := G st; Jx := Jx st; Iy := Iy st; Iz := Iz st;
     rho := rho st; wx := wx st; wy := wy st; wz := wz st; Q := Q st;
     q := q st; K := K st; P := P st; theNodes := theNodes st;
     theCoordTransf := theCoordTransf st; theSect := theSect st;
     alp := alp st; nu := nu st; pressure := pressure st;
     center := center st; radius := radius st; theta0 := x;
     tolWall := tolWall st |}.

Definition set_q (st : CurvedPipe) (x : Vector) : CurvedPipe :=
  {| A := A st; E := E st; G := G st; Jx := Jx st; Iy := Iy st; Iz := Iz st;
     rho := rho st; wx := wx st; wy := wy st; wz := wz st; Q := Q st;
     q := x; K := K st; P := P st; theNodes := theNodes st;
     theCoordTransf := theCoordTransf st; theSect := theSect st;
     alp := alp st; nu := nu st; pressure := pressure st;
     center := center st; radius := radius st; theta0 := theta0 st;
     tolWall := tolWall st |}.

Definition set_K (st : CurvedPipe) (x : Matrix) : CurvedPipe :=
  {| A := A st; E := E st; G := G st; Jx := Jx st; Iy := Iy st; Iz := Iz st;
     rho := rho st; wx := wx st; wy := wy st; wz := wz st; Q := Q st;
     q := q st; K := x; P := P st; theNodes := theNodes st;
     theCoordTransf := theCoordTransf st; theSect := theSect st;
     alp := alp st; nu := nu st; pressure := pressure st;
     center := center st; radius := radius st; theta0 := theta0 st;
     tolWall := tolWall st |}.

Definition set_P (st : CurvedPipe) (x : Vector) : CurvedPipe :=
  {| A := A st; E := E st; G := G st; Jx := Jx st; Iy := Iy st; Iz := Iz st;
     rho := rho st; wx := wx st; wy := wy st; wz := wz st; Q := Q st;
     q := q st; K := K st; P := x; theNodes := theNodes st;
     theCoordTransf := theCoordTransf st; theSect := theSect st;
     alp := alp st; nu := nu st; pressure := pressure st;
     center := center st; radius := radius st; theta0 := theta0 st;
     tolWall := tolWall st |}.

(** The members of the base class [Pipe] that the element calls and whose
    bodies are not among the sources: the two refreshes of the property
    snapshots, with their [int] status, and the averaged temperature
    differential. *)
Class PipeBase := {
  updateSectionData : CurvedPipe -> Z * CurvedPipe;
  updateMaterialData : CurvedPipe -> Z * CurvedPipe;
  aveTemp : CurvedPipe -> R
}.

(** 20 gauss points in (wi, xi) *)
Definition gaussPts : list R := [
    0.1527533871307258;  -0.0765265211334973; 0.1527533871307258;
    0.0765265211334973;  0.1491729864726037;  -0.2277858511416451;
    0.1491729864726037;  0.2277858511416451;  0.1420961093183820;
    -0.3737060887154195; 0.1420961093183820;  0.3737060887154195;
    0.1316886384491766;  -0.5108670019508271; 0.1316886384491766;
    0.5108670019508271;  0.1181945319615184;  -0.6360536807265150;
    0.1181945319615184;  0.6360536807265150;  0.1019301198172404;
    -0.7463319064601508; 0.1019301198172404;  0.7463319064601508;
    0.0832767415767048;  -0.8391169718222188; 0.0832767415767048;
    0.8391169718222188;  0.0626720483341091;  -0.9122344282513259;
    0.0626720483341091;  0.9122344282513259;  0.0406014298003869;
    -0.9639719272779138; 0.0406014298003869;  0.9639719272779138;
    0.0176140071391521;  -0.9931285991850949; 0.0176140071391521;
    0.9931285991850949].

(** [CurvedPipe::getTheta0]: the status and the element afterwards. *)
Definition getTheta0 (st : CurvedPipe) : Z * CurvedPipe :=
  let crds1 := getCrds (fst (theNodes st)) in
  let crds2 := getCrds (snd (theNodes st)) in
  let R1 := Norm (vsub (center st) crds1) in
  let R2 := Norm (vsub (center st) crds2) in
  let st := set_radius st ((R1 + R2) / 2) in
  if Rle_dec (radius st) 0 then ((-1)%Z, st) else
  let thk := WALL (theSect st) in
  if Rgt_dec (Rabs (R1 - R2)) (tolWall st * thk) then ((-1)%Z, st) else
  let Lhalf := getInitialLength (theCoordTransf st) / 2 in
  if Rgt_dec Lhalf (0.99985 * radius st) then ((-1)%Z, st) else
  let st := set_theta0 st (asin (Lhalf / radius st)) in
  (0%Z, st).

(** [CurvedPipe::bx] *)
Definition bx (st : CurvedPipe) (theta : R) : Matrix :=
  let mat := mZero 6 6 in
  let c := cos theta in
  let s := sin theta in
  let L := getInitialLength (theCoordTransf st) in
  let Rad := radius st in
  let H := Rad * (c - cos (theta0 st)) in
  let H0 := Rad * cos (theta0 st) in
  let invL := 1 / L in
  let mat := mset mat 0 0 c in
  let mat := mset mat 0 1 ((- s) * invL) in
  let mat := mset mat 0 2 ((- s) * invL) in
  let mat := mset mat 1 0 (- H) in
  let mat := mset mat 1 1 (Rad * s * invL - 0.5) in
  let mat := mset mat 1 2 (Rad * s * invL + 0.5) in
  let mat := mset mat 2 3 (s * H0 * invL - 0.5 * c) in
  let mat := mset mat 2 4 (s * H0 * invL + 0.5 * c) in
  let mat := mset mat 2 5 (- s) in
  let mat := mset mat 3 3 (Rad * invL * (1 - cos (theta - theta0 st))) in
  let mat := mset mat 3 4 (Rad * invL * (1 - cos (theta + theta0 st))) in
  let mat := mset mat 3 5 c in
  let mat := mset mat 4 0 s in
  let mat := mset mat 4 1 (c * invL) in
  let mat := mset mat 4 2 (c * invL) in
  let mat := mset mat 5 3 invL in
  let mat := mset mat 5 4 invL in
  mat.

(** [CurvedPipe::Spx] *)
Definition Spx (st : CurvedPipe) (theta : R) : Vector :=
  let vec := vZero 6 in
  let wx := wx st in
  let wy := wy st in
  let wz := wz st in
  let c := cos theta in
  let s := sin theta in
  let L := getInitialLength (theCoordTransf st) in
  let Rad := radius st in
  let R2 := Rad * Rad in
  let H0 := Rad * cos (theta0 st) in
  let invL := 1 / L in
  let stt0 := sin (theta - theta0 st) in
  let ctt0 := cos (theta - theta0 st) in
  let vec := vset vec 0
    (wx * Rad *
       (c * theta0 st - s - c * theta + 2 * s * theta0 st * H0 * invL) -
     wy * Rad * s * theta) in
  let vec := vset vec 1
    (wx * Rad *
       (c * Rad * theta - 2 * s * Rad * theta0 st * H0 * invL -
        c * Rad * theta0 st + theta0 st * H0) +
     wy * Rad * (s * Rad * theta - theta0 st * L * 0.5 + c * Rad - H0)) in
  let vec := vset vec 2 (wz * R2 * ((- theta0 st) * stt0 + ctt0 - 1)) in
  let vec := vset vec 3 (wz * R2 * (- theta + theta0 st * ctt0 + stt0)) in
  let vec := vset vec 4
    (wx * Rad *
       (c + s * theta0 st - s * theta - 2 * c * theta0 st * H0 * invL) +
     wy * Rad * c * theta) in
  let vec := vset vec 5 ((- wz) * Rad * theta) in
  vec.

(** [CurvedPipe::fs] *)
Definition fs (st : CurvedPipe) (theta : R) : Matrix :=
  let mat := mZero 6 6 in
  let mat := mset mat 0 0 (1 / (E st * A st)) in
  let mat := mset mat 1 1 (1 / (E st * Iz st)) in
  let mat := mset mat 2 2 (1 / (E st * Iy st)) in
  let mat := mset mat 3 3 (1 / (G st * Jx st)) in
  let alphaV := ALFAV (theSect st) in
  let alphaV := if Rgt_dec alphaV 99 then 0 else alphaV in
  if Rgt_dec alphaV 0 then
    let Ay := A st / alphaV in
    let Az := A st / alphaV in
    let mat := mset mat 4 4 (1 / (G st * Ay)) in
    let mat := mset mat 5 5 (1 / (G st * Az)) in
    mat
  else mat.

(** [CurvedPipe::fb] *)
Definition fb (st : CurvedPipe) (theta : R) : Matrix :=
  let mat := mZero 6 6 in
  let bxmat := bx st theta in
  let fsmat := fs st theta in
  addMatrixTripleProduct mat 0 bxmat fsmat 1.

(** [CurvedPipe::ubno] *)
Definition ubno (st : CurvedPipe) (theta : R) : Vector :=
  let vec := vZero 6 in
  let fsmat := fs st theta in
  let bxmat := bx st theta in
  let spxvec := Spx st theta in
  let temp := vZero 6 in
  let temp := addMatrixVector temp 0 fsmat spxvec 1 in
  addMatrixTransposeVector vec 0 bxmat temp 1.

(** [CurvedPipe::integrateGauss]: the two results [resm] and [resv]. *)
Definition integrateGauss (st : CurvedPipe) (a b : R) : Matrix * Vector :=
  let p := (b - a) / 2 in
  let q := (b + a) / 2 in
  let resm := mZero 6 6 in
  let resv := vZero 6 in
  let '(resm, resv) :=
    fold_left
      (fun '(resm, resv) i =>
         let xi := nth (2 * i + 1) gaussPts 0 * p + q in
         let wi := nth (2 * i) gaussPts 0 * p in
         let mat := fb st xi in
         let resm := addMatrix resm 1 mat wi in
         let vec := ubno st xi in
         let resv := addVector resv 1 vec wi in
         (resm, resv))
      (seq 0 (length gaussPts / 2)) (resm, resv) in
  (mscale resm (radius st), vscale resv (radius st)).

(** [CurvedPipe::plw] *)
Definition plw (st : CurvedPipe) : Vector :=
  let vec := vZero 6 in
  let wx := wx st in
  let wy := wy st in
  let wz := wz st in
  let Rad := radius st in
  let H0 := Rad * cos (theta0 st) in
  let L := getInitialLength (theCoordTransf st) in
  let vec := vset vec 0 ((-2) * wx * Rad * theta0 st) in
  let vec := vset vec 1
    (wx * Rad * (1 - 2 * theta0 st * H0 / L) - wy * Rad * theta0 st) in
  let vec := vset vec 2
    ((- wx) * Rad * (1 - 2 * theta0 st * H0 / L) - wy * Rad * theta0 st) in
  let vec := vset vec 3 ((- wz) * Rad * theta0 st) in
  let vec := vset vec 4 ((- wz) * Rad * theta0 st) in
  let vec := vset vec 5 (wz * Rad * (L - 2 * theta0 st * H0)) in
  vec.

Section Element.
Context `{PipeBase}.

(** The part of [CurvedPipe::kb] that adds the thermal and the pressure
    terms to [ubnovec] ("due to thermal", "due to internal pressure"). *)
Definition kb_ub0 (st : CurvedPipe) (ubnovec : Vector) : Vector :=
  let dT := aveTemp st in
  let Rad := radius st in
  let ubnovec :=
    if Rgt_dec dT 0 then
      vset ubnovec 0 (vget ubnovec 0 + 2 * Rad * alp st * dT * sin (theta0 st))
    else ubnovec in
  if Req_dec_T (pressure st) 0 then ubnovec else
    let dout := DOUT (theSect st) in
    let thk := WALL (theSect st) in
    let RM := (dout - thk) * 0.5 in
    let DU2 := Rad / RM in
    let DUM := pressure st * RM * 0.5 / (E st * thk) in
    let DU3 := 1 + DUM * (1 - nu st * (2 * DU2 - 1) / (DU2 - 1)) in
    let BTA := DU3 / (1 + DUM * (2 - nu st)) in
    let BTA := (- (1 - BTA)) / Rad in
    let ubnovec := vset ubnovec 0
      (vget ubnovec 0 +
       0.5 * pressure st * Rad * (dout - thk) * (1 - 2 * nu st) *
       sin (theta0 st) / (E st * thk)) in
    let ubnovec := vset ubnovec 0
      (vget ubnovec 0 +
       2 * Rad * Rad * BTA *
       (theta0 st * cos (theta0 st) - sin (theta0 st))) in
    let ubnovec := vset ubnovec 1
      (vget ubnovec 1 + (- Rad) * BTA * theta0 st) in
    let ubnovec := vset ubnovec 2
      (vget ubnovec 2 + Rad * BTA * theta0 st) in
    ubnovec.

(** [CurvedPipe::kb]: [Some (mat, vec)] for the status 0, [None] for -1,
    and the element afterwards. *)
Definition kb (st : CurvedPipe) : option (Matrix * Vector) * CurvedPipe :=
  let '(fbmat, ubnovec) := integrateGauss st (- theta0 st) (theta0 st) in
  let '(rc, st) := updateSectionData st in
  if (rc <? 0)%Z then (None, st) else
  let '(rc, st) := updateMaterialData st in
  if (rc <? 0)%Z then (None, st) else
  let ubnovec := kb_ub0 st ubnovec in
  match Invert fbmat with
  | None => (None, st)
  | Some mat =>
      let vec := vZero 6 in
      let vec := addMatrixVector vec 0 mat ubnovec (-1) in
      (Some (mat, vec), st)
  end.

(** [CurvedPipe::getTangentStiff] *)
Definition getTangentStiff (st : CurvedPipe) : Matrix * CurvedPipe :=
  let v := getBasicTrialDisp (theCoordTransf st) in
  match kb st with
  | (None, st) =>
      let st := set_K st (Zero_m (K st)) in
      (K st, st)
  | (Some (kbm, pb0), st) =>
      let st := set_q st (addMatrixVector (q st) 0 kbm v 1) in
      let st := set_q st (vadd (q st) pb0) in
      (getGlobalStiffMatrix (theCoordTransf st) kbm (q st), st)
  end.

(** [CurvedPipe::getInitialStiff] *)
Definition getInitialStiff (st : CurvedPipe) : Matrix * CurvedPipe :=
  match kb st with
  | (None, st) =>
      let st := set_K st (Zero_m (K st)) in
      (K st, st)
  | (Some (kbm, pb0), st) =>
      (getInitialGlobalStiffMatrix (theCoordTransf st) kbm, st)
  end.

(** [CurvedPipe::getResistingForce] *)
Definition getResistingForce (st : CurvedPipe) : Vector * CurvedPipe :=
  let v := getBasicTrialDisp (theCoordTransf st) in
  match kb st with
  | (None, st) =>
      let st := set_P st (Zero_v (P st)) in
      (P st, st)
  | (Some (kbm, pb0), st) =>
      let st := set_q st (addMatrixVector (q st) 0 kbm v 1) in
      let st := set_q st (vadd (q st) pb0) in
      let p0Vec := plw st in
      let st := set_P st (getGlobalResistingForce (theCoordTransf st) (q st) p0Vec) in
      let st := if Req_dec_T (rho st) 0 then st
                else set_P st (addVector (P st) 1 (Q st) (-1)) in
      (P st, st)
  end.

End Element.

(** ** The quadrature rule in the words of the specification *)

(** The 20-point Gauss-Legendre rule on [-1, 1]: ten symmetric pairs of
    points, each entry a weight with its abscissa. *)
Definition gaussRule : list (R * R) := [
    (0.1527533871307258, -0.0765265211334973);
    (0.1527533871307258, 0.0765265211334973);
    (0.1491729864726037, -0.2277858511416451);
    (0.1491729864726037, 0.2277858511416451);
    (0.1420961093183820, -0.3737060887154195);
    (0.1420961093183820, 0.3737060887154195);
    (0.1316886384491766, -0.5108670019508271);
    (0.1316886384491766, 0.5108670019508271);
    (0.1181945319615184, -0.6360536807265150);
    (0.1181945319615184, 0.6360536807265150);
    (0.1019301198172404, -0.7463319064601508);
    (0.1019301198172404, 0.7463319064601508);
    (0.0832767415767048, -0.8391169718222188);
    (0.0832767415767048, 0.8391169718222188);
    (0.0626720483341091, -0.9122344282513259);
    (0.0626720483341091, 0.9122344282513259);
    (0.0406014298003869, -0.9639719272779138);
    (0.0406014298003869, 0.9639719272779138);
    (0.0176140071391521, -0.9931285991850949);
    (0.0176140071391521, 0.9931285991850949)].

(** The rule applied to [f] on [[a, b]] through the affine substitution
    xi = p * abscissa + q with p = (b - a) / 2 and q = (b + a) / 2: the
    sum, from zero, of the values of [f] at the mapped points, each
    scaled by its weight times [p]. *)
Definition quadrature (a b : R) (f : R -> R) : R :=
  let p := (b - a) / 2 in
  let q := (b + a) / 2 in
  Rsum (map (fun wx => (fst wx * p) * f (p * snd wx + q)) gaussRule).

(** ** The load terms of [kb] in the words of the specification *)

(** The specification names a thermal term and a thin-wall pressure
    correction; their closed forms are those of the source. *)

Section LoadTerms.
Context `{PipeBase}.

(** The thermal term, added when the temperature differential is
    positive. *)
Definition thermalTerm (st : CurvedPipe) : R :=
  if Rgt_dec (aveTemp st) 0
  then 2 * radius st * alp st * aveTemp st * sin (theta0 st)
  else 0.

(** The thin-wall pressure-expansion relation: mean radius, ratio of
    pressure to thickness, and the Poisson-adjusted beta factor. *)
Definition pressureBTA (st : CurvedPipe) : R :=
  let dout := DOUT (theSect st) in
  let thk := WALL (theSect st) in
  let RM := (dout - thk) * 0.5 in
  let DU2 := radius st / RM in
  let DUM := pressure st * RM * 0.5 / (E st * thk) in
  let DU3 := 1 + DUM * (1 - nu st * (2 * DU2 - 1) / (DU2 - 1)) in
  (- (1 - DU3 / (1 + DUM * (2 - nu st)))) / radius st.

Definition thinWallTerm (st : CurvedPipe) : R :=
  0.5 * pressure st * radius st * (DOUT (theSect st) - WALL (theSect st)) *
  (1 - 2 * nu st) * sin (theta0 st) / (E st * WALL (theSect st)).

Definition curvatureTerm (st : CurvedPipe) : R :=
  2 * radius st * radius st * pressureBTA st *
  (theta0 st * cos (theta0 st) - sin (theta0 st)).

(** The pressure corrections of the axial and of the two bending
    components; none when the pressure is zero. *)
Definition pressureAxial (st : CurvedPipe) : R :=
  if Req_dec_T (pressure st) 0 then 0
  else thinWallTerm st + curvatureTerm st.

Definition pressureBending (st : CurvedPipe) : R :=
  if Req_dec_T (pressure st) 0 then 0
  else radius st * pressureBTA st * theta0 st.

(** The locked deformation vector: the integrated [ubno] with the thermal
    term on the axial component and the pressure corrections on the axial
    and the two bending components. *)
Definition lockedDeformation (st : CurvedPipe) (ubnovec : list R) : list R :=
  [ vget ubnovec 0 + thermalTerm st + pressureAxial st;
    vget ubnovec 1 - pressureBending st;
    vget ubnovec 2 + pressureBending st;
    vget ubnovec 3; vget ubnovec 4; vget ubnovec 5 ].

(** What [kb] adds to the axial component of [ubnovec]. *)
Definition axialCorrection (st : CurvedPipe) (ubnovec : list R) : R :=
  vget (kb_ub0 st ubnovec) 0 - vget ubnovec 0.

End LoadTerms.

(** ** Further notions used by the statements *)

(** The shear flexibility that [fs] writes on its last two diagonal
    entries. *)
Definition shear (st : CurvedPipe) : R :=
  if Rgt_dec (ALFAV (theSect st)) 99 then 0
  else if Rgt_dec (ALFAV (theSect st)) 0
       then 1 / (G st * (A st / ALFAV (theSect st))) else 0.

(** One turn of the loop of [integrateGauss]. *)
Definition gaussStep (st : CurvedPipe) (p q : R) :
  list (list R) * list R -> nat -> list (list R) * list R :=
  fun '(resm, resv) i =>
    let xi := nth (2 * i + 1) gaussPts 0 * p + q in
    let wi := nth (2 * i) gaussPts 0 * p in
    (addMatrix resm 1 (fb st xi) wi, addVector resv 1 (ubno st xi) wi).

(** What [kb] integrates: the flexibility matrix and the locked
    deformation of the distributed load over [-theta0, theta0]. *)
Definition flexibility (st : CurvedPipe) : list (list R) :=
  fst (integrateGauss st (- theta0 st) (theta0 st)).

Definition ubnoGauss (st : CurvedPipe) : list R :=
  snd (integrateGauss st (- theta0 st) (theta0 st)).

(** The three conditions under which the geometry solver gives up. *)
Definition geometryFails (st : CurvedPipe) : Prop :=
  let R1 := Norm (vsub (center st) (getCrds (fst (theNodes st)))) in
  let R2 := Norm (vsub (center st) (getCrds (snd (theNodes st)))) in
  let rad := (R1 + R2) / 2 in
  let Lhalf := getInitialLength (theCoordTransf st) / 2 in
  rad <= 0 \/ Rabs (R1 - R2) > tolWall st * WALL (theSect st) \/
  Lhalf > 0.99985 * rad.

(** The element has a proper arc and positive stiffnesses. *)
Definition admissible (st : CurvedPipe) : Prop :=
  0 < radius st /\ 0 < theta0 st < PI / 2 /\
  0 < getInitialLength (theCoordTransf st) /\
  0 < E st * A st /\ 0 < E st * Iz st /\ 0 < E st * Iy st /\
  0 < G st * Jx st /\ 0 <= G st * A st.

(** Row [i] of the matrix with entries [e] applied to [x], and the
    quadratic form of [e] at [x]. *)
Definition rowApply (e : nat -> nat -> R) (x : nat -> R) (i : nat) : R :=
  e i 0%nat * x 0%nat + e i 1%nat * x 1%nat + e i 2%nat * x 2%nat +
  e i 3%nat * x 3%nat + e i 4%nat * x 4%nat + e i 5%nat * x 5%nat.

Definition quadForm (e : nat -> nat -> R) (x : nat -> R) : R :=
  x 0%nat * rowApply e x 0 + x 1%nat * rowApply e x 1 +
  x 2%nat * rowApply e x 2 + x 3%nat * rowApply e x 3 +
  x 4%nat * rowApply e x 4 + x 5%nat * rowApply e x 5.

(** The internal forces of the section at [theta] under the basic
    forces [x]: row [r] of [bx] applied to [x]. *)
Definition bxRow (st : CurvedPipe) (theta : R) (x : nat -> R) (r : nat) : R :=
  rowApply (mget (bx st theta)) x r.

(** The entries that couple the in-plane with the out-of-plane basic
    forces. *)
Definition offBlock (i j : nat) : bool :=
  (Nat.ltb i 3 && Nat.leb 3 j && Nat.ltb j 6) ||
  (Nat.leb 3 i && Nat.ltb i 6 && Nat.ltb j 3).

Definition det3 (a b c d e f g h i : R) : R :=
  a * (e * i - f * h) - b * (d * i - f * g) + c * (d * h - e * g).

(** The inverse of a 3 by 3 matrix by cofactors, and the matrix made of
    two 3 by 3 diagonal blocks. *)
Definition inv3 (a b c d e f g h i : R) : list (list R) :=
  let dt := det3 a b c d e f g h i in
  [ [(e * i - f * h) / dt; (c * h - b * i) / dt; (b * f - c * e) / dt];
    [(f * g - d * i) / dt; (a * i - c * g) / dt; (c * d - a * f) / dt];
    [(d * h - e * g) / dt; (b * g - a * h) / dt; (a * e - b * d) / dt] ].

Definition blockDiag (u v : list (list R)) : list (list R) :=
  map (fun r => r ++ [0; 0; 0]) u ++ map (fun r => [0; 0; 0] ++ r) v.

Definition pad3 (x y z : R) (k : nat) : R :=
  match k with
  | 0%nat => x | 1%nat => y | 2%nat => z | _ => 0
  end.

Definition pad3' (x y z : R) (k : nat) : R :=
  match k with
  | 3%nat => x | 4%nat => y | 5%nat => z | _ => 0
  end.

(** ** A pipe bend *)

(** An arc of radius 1 about the origin between the nodes (4/5, -3/5, 0)
    and (4/5, 3/5, 0): chord 6/5, half angle asin (3/5).  The
    transformation lays the basic forces and the member-load actions
    side by side; the refreshes of the base class succeed and leave the
    element as it is, and there is no temperature differential. *)
Definition bendTransf : CrdTransf :=
  {| getInitialLength := 6 / 5;
     getBasicTrialDisp := [0; 0; 0; 0; 0; 0];
     getGlobalStiffMatrix := fun kbm _ => kbm;
     getInitialGlobalStiffMatrix := fun kbm => kbm;
     getGlobalResistingForce := fun qb p0 =>
       [vget qb 0; vget qb 1; vget qb 2; vget qb 3; vget qb 4; vget qb 5;
        vget p0 0; vget p0 1; vget p0 2; vget p0 3; vget p0 4; vget p0 5] |}.

Definition bendSect : PipeSection :=
  {| DOUT := 3 / 10; WALL := 1 / 10; ALFAV := 2 |}.

Definition bendWith (p rad th : R) : CurvedPipe :=
  {| A := 1 / 20; E := 200; G := 80;
     Jx := 1 / 1000; Iy := 1 / 2000; Iz := 1 / 2000;
     rho := 0; wx := 0; wy := 0; wz := 0;
     Q := [1; 0; 0; 0; 0; 0; 0; 0; 0; 0; 0; 0];
     q := [0; 0; 0; 0; 0; 0];
     K := mZero 12 12;
     P := vZero 12;
     theNodes := ({| getCrds := [4 / 5; - (3 / 5); 0] |},
                  {| getCrds := [4 / 5; 3 / 5; 0] |});
     theCoordTransf := bendTransf;
     theSect := bendSect;
     alp := 0.000012; nu := 1 / 4; pressure := p;
     center := [0; 0; 0];
     radius := rad; theta0 := th; tolWall := 0.1 |}.

(** As constructed, and after the geometry solver has run. *)
Definition bendInit (p : R) : CurvedPipe := bendWith p 0 0.
Definition bend (p : R) : CurvedPipe := bendWith p 1 (asin (3 / 5)).

Definition bendBase : PipeBase :=
  {| updateSectionData := fun st => (0%Z, st);
     updateMaterialData := fun st => (0%Z, st);
     aveTemp := fun _ => 0 |}.

(** ** Matrices given by their entries, and load cases *)

(** The 6 by 6 matrix with the entries [f i j]. *)
Definition mk66 (f : nat -> nat -> R) : list (list R) :=
  map (fun i => map (fun j => f i j) (seq 0 6)) (seq 0 6).

(** The element under the distributed load (a, b, c). *)
Definition set_w (st : CurvedPipe) (a b c : R) : CurvedPipe :=
  {| A := A st; E := E st; G := G st; Jx := Jx st; Iy := Iy st; Iz := Iz st;
     rho := rho st; wx := a; wy := b; wz := c; Q := Q st;
     q := q st; K := K st; P := P st; theNodes := theNodes st;
     theCoordTransf := theCoordTransf st; theSect := theSect st;
     alp := alp st; nu := nu st; pressure := pressure st;
     center := center st; radius := radius st; theta0 := theta0 st;
     tolWall := tolWall st |}.

(** ** Constructing and attaching the element *)

(** A call that may end the process: [Exits code] is [exit(code)]. *)
Inductive Outcome (X : Type) : Type :=
| Returns (x : X)
| Exits (code : Z).
Arguments Returns {X} x.
Arguments Exits {X} code.

(** The domain, through the one method the element calls; a node that
    does not exist is the null pointer. *)
Record Domain := { getNode : Z -> option Node }.

(** The element made of the members of the base classes of [base] and of
    the four members that [CurvedPipe] adds to them. *)
Definition mkCurvedPipe (base : CurvedPipe) (c : list R) (rad th tol : R)
  : CurvedPipe :=
  {| A := A base; E := E base; G := G base; Jx := Jx base; Iy := Iy base;
     Iz := Iz base; rho := rho base; wx := wx base; wy := wy base;
     wz := wz base; Q := Q base; q := q base; K := K base; P := P base;
     theNodes := theNodes base; theCoordTransf := theCoordTransf base;
     theSect := theSect base; alp := alp base; nu := nu base;
     pressure := pressure base;
     center := c; radius := rad; theta0 := th; tolWall := tol |}.

Definition set_center (st : CurvedPipe) (c : list R) : CurvedPipe :=
  mkCurvedPipe st c (radius st) (theta0 st) (tolWall st).

Definition set_theNodes (st : CurvedPipe) (n : Node * Node) : CurvedPipe :=
  {| A := A st; E := E st; G := G st; Jx := Jx st; Iy := Iy st; Iz := Iz st;
     rho := rho st; wx := wx st; wy := wy st; wz := wz st; Q := Q st;
     q := q st; K := K st; P := P st; theNodes := n;
     theCoordTransf := theCoordTransf st; theSect := theSect st;
     alp := alp st; nu := nu st; pressure := pressure st;
     center := center st; radius := radius st; theta0 := theta0 st;
     tolWall := tolWall st |}.

Definition set_theCoordTransf (st : CurvedPipe) (t : CrdTransf) : CurvedPipe :=
  {| A := A st; E := E st; G := G st; Jx := Jx st; Iy := Iy st; Iz := Iz st;
     rho := rho st; wx := wx st; wy := wy st; wz := wz st; Q := Q st;
     q := q st; K := K st; P := P st; theNodes := theNodes st;
     theCoordTransf := t; theSect := theSect st;
     alp := alp st; nu := nu st; pressure := pressure st;
     center := center st; radius := radius st; theta0 := theta0 st;
     tolWall := tolWall st |}.

(** What the constructor, [setDomain] and the factory function
    call outside the element, and whose bodies are not among the sources:
    the base classes, two helpers on vectors, the constructor of the
    transformation, the reading of the command line and the look-up of
    sections and materials.  A member function of a base class is given
    the element and returns it; where the element goes on with it, only
    the members of the base classes are taken from the result. *)
Class PipeHost := {
  PipeMaterial : Type;
  Pipe_new : Z -> CurvedPipe;
  createPipe : CurvedPipe -> Z -> Z -> PipeMaterial -> PipeSection ->
               Z -> Z -> Z -> R -> Z * CurvedPipe;
  connectedExternalNodes : CurvedPipe -> Z * Z;
  Normalize : list R -> list R;
  crossProduct : list R -> list R -> option (list R);
  LinearCrdTransf3d : list R -> CrdTransf;
  ElasticBeam3d_setDomain : Domain -> CurvedPipe -> Outcome CurvedPipe;
  parseInt : String.string -> option Z;
  parseDouble : String.string -> option R;
  getPipeSection : Z -> option PipeSection;
  getPipeMaterial : Z -> option PipeMaterial;
  defaultTol : R
}.

Section Lifecycle.
Context `{PipeBase} `{PipeHost}.

(** The loop of the constructor that copies [c] into [center], leaving
    at the fourth entry of [c]; [copyStep] is its body, with the flag
    that the loop has been left. *)
Definition copyStep (c : list R) : list R * bool -> nat -> list R * bool :=
  fun '(center, stop) i =>
    if (stop : bool) then (center, true)
    else if (3 <=? i)%nat then (center, true)
    else (vset center i (vget c i), false).

Definition copyCenter (center c : list R) : list R :=
  fst (fold_left (copyStep c) (seq 0 (length c)) (center, false)).

(** [CurvedPipe::CurvedPipe(tag, nd1, nd2, mat, sect, c, to, pre, cm,
    tol)] *)
Definition CurvedPipe_new (tag nd1 nd2 : Z) (mat : PipeMaterial)
  (sect : PipeSection) (c : list R) (to pre : R) (cm : Z) (tol : R)
  : Outcome CurvedPipe :=
  let st := mkCurvedPipe (Pipe_new tag) (vZero 3) 0 0 tol in
  let '(rc, base) := createPipe st nd1 nd2 mat sect cm 0 0 pre in
  let st := mkCurvedPipe base (center st) (radius st) (theta0 st) (tolWall st) in
  if (rc <? 0)%Z then Exits (-1)%Z else
  let st := if Nat.eqb (length (center st)) 3 then st
            else set_center st (vZero 3) in
  let st := set_center st (copyCenter (center st) c) in
  Returns st.

(** [CurvedPipe::setDomain]; [ndm] is what [OPS_GetNDM] returns. *)
Definition setDomain (theDomain : option Domain) (ndm : Z) (st : CurvedPipe)
  : Outcome CurvedPipe :=
  match theDomain with
  | None => Exits (-1)%Z
  | Some dom =>
    if negb (ndm =? 3)%Z then Exits (-1)%Z else
    let node0 := getNode dom (fst (connectedExternalNodes st)) in
    let node1 := getNode dom (snd (connectedExternalNodes st)) in
    match node0, node1 with
    | None, _ => Exits (-1)%Z
    | Some _, None => Exits (-1)%Z
    | Some nodeI, Some nodeJ =>
      let st := set_theNodes st (nodeI, nodeJ) in
      let crdsI := getCrds nodeI in
      let crdsJ := getCrds nodeJ in
      let CI := Normalize (vsub crdsI (center st)) in
      let IJ := Normalize (vsub crdsJ crdsI) in
      match crossProduct CI IJ with
      | None => Exits (-1)%Z
      | Some zAxis =>
        let st := set_theCoordTransf st (LinearCrdTransf3d zAxis) in
        let '(rc, st) := updateSectionData st in
        if (rc <? 0)%Z then Returns st else
        let '(rc, st) := updateMaterialData st in
        if (rc <? 0)%Z then Returns st else
        match ElasticBeam3d_setDomain dom st with
        | Exits code => Exits code
        | Returns base =>
          let st := mkCurvedPipe base (center st) (radius st) (theta0 st)
                      (tolWall st) in
          let '(rc, st) := getTheta0 st in
          if (rc <? 0)%Z then Exits (-1)%Z else Returns st
        end
      end
    end
  end.

(** Modelled from the spec: the reader of the command's arguments
    ([OPS_GetNumRemainingInputArgs], [OPS_GetString], [OPS_GetIntInput],
    [OPS_GetDoubleInput]) belongs to the interpreter; its body is not
    among the sources, and the specification leaves the reading of the
    arguments aside.  The arguments that remain are a list of tokens:
    their number is its length, [OPS_GetString] takes the first one, and
    [OPS_GetIntInput] and [OPS_GetDoubleInput] take the next [n], with a
    negative status ([None]) when one is missing or does not read as a
    number; how one token reads as a number is left to [parseInt] and
    [parseDouble]. *)
Fixpoint OPS_GetIntInput (n : nat) (args : list String.string)
  : option (list Z * list String.string) :=
  match n with
  | O => Some ([], args)
  | S n' =>
    match args with
    | [] => None
    | a :: rest =>
      match parseInt a with
      | None => None
      | Some v =>
        match OPS_GetIntInput n' rest with
        | None => None
        | Some (vs, rest') => Some (v :: vs, rest')
        end
      end
    end
  end.

Fixpoint OPS_GetDoubleInput (n : nat) (args : list String.string)
  : option (list R * list String.string) :=
  match n with
  | O => Some ([], args)
  | S n' =>
    match args with
    | [] => None
    | a :: rest =>
      match parseDouble a with
      | None => None
      | Some v =>
        match OPS_GetDoubleInput n' rest with
        | None => None
        | Some (vs, rest') => Some (v :: vs, rest')
        end
      end
    end
  end.

(** The loop of [OPS_CurvedPipeElement] over the optional arguments: the
    values of T0, pressure, tolWall and cMass when the arguments are
    used up, [None] where the function returns 0. *)
Fixpoint getData (args : list String.string) (T0 pressure tolWall : R)
  (cMass : Z) : option (R * R * R * Z) :=
  match args with
  | [] => Some (T0, pressure, tolWall, cMass)
  | theType :: rest =>
    if String.eqb theType "-T0" then
      match rest with
      | [] => getData rest T0 pressure tolWall cMass
      | v :: rest' =>
        match parseDouble v with
        | None => None
        | Some x => getData rest' x pressure tolWall cMass
        end
      end
    else if String.eqb theType "-p" then
      match rest with
      | [] => getData rest T0 pressure tolWall cMass
      | v :: rest' =>
        match parseDouble v with
        | None => None
        | Some x => getData rest' T0 x tolWall cMass
        end
      end
    else if String.eqb theType "-tolWall" then
      match rest with
      | [] =>
        if Rlt_dec tolWall 0 then None
        else if Rgt_dec tolWall 1 then None
        else getData rest T0 pressure tolWall cMass
      | v :: rest' =>
        match parseDouble v with
        | None => None
        | Some x =>
          if Rlt_dec x 0 then None
          else if Rgt_dec x 1 then None
          else getData rest' T0 pressure x cMass
        end
      end
    else if String.eqb theType "-cMass" then
      getData rest T0 pressure tolWall 1
    else getData rest T0 pressure tolWall cMass
  end.

(** [OPS_CurvedPipeElement]: the element, [None] where the function
    returns 0. *)
Definition OPS_CurvedPipeElement (args : list String.string)
  : Outcome (option CurvedPipe) :=
  if (length args <? 8)%nat then Returns None else
  match OPS_GetIntInput 5 args with
  | None => Returns None
  | Some (iData, args) =>
    match OPS_GetDoubleInput 3 args with
    | None => Returns None
    | Some (center, args) =>
      match getData args 0 0 0.1 0 with
      | None => Returns None
      | Some (T0, pressure, tolWall, cMass) =>
        match getPipeSection (nth 4 iData 0%Z) with
        | None => Returns None
        | Some theSect =>
          match getPipeMaterial (nth 3 iData 0%Z) with
          | None => Returns None
          | Some theMat =>
            match CurvedPipe_new (nth 0 iData 0%Z) (nth 1 iData 0%Z)
                    (nth 2 iData 0%Z) theMat theSect center T0 pressure
                    cMass defaultTol with
            | Exits code => Exits code
            | Returns ele => Returns (Some ele)
            end
          end
        end
      end
    end
  end.

End Lifecycle.

(** ** The bend of the example, created by a command and put in a domain *)

Definition bendDomain : Domain :=
  {| getNode := fun tag =>
       if (tag =? 1)%Z then Some {| getCrds := [4 / 5; - (3 / 5); 0] |}
       else if (tag =? 2)%Z then Some {| getCrds := [4 / 5; 3 / 5; 0] |}
       else None |}.

Section BendCommand.
Local Open Scope string_scope.

(** The base class creates the bend under the pressure it is given; the
    numbers a command may hold are 0, 1, 2, 20 and 0.5. *)
Definition bendHost : PipeHost :=
  {| PipeMaterial := unit;
     Pipe_new := fun _ => bendInit 0;
     createPipe := fun _ _ _ _ _ _ _ _ pre => (0%Z, bendInit pre);
     connectedExternalNodes := fun _ => (1%Z, 2%Z);
     Normalize := fun v => v;
     crossProduct := fun _ _ => Some [0; 0; 1];
     LinearCrdTransf3d := fun _ => bendTransf;
     ElasticBeam3d_setDomain := fun _ st => Returns st;
     parseInt := fun s =>
       if String.eqb s "1" then Some 1%Z
       else if String.eqb s "2" then Some 2%Z else None;
     parseDouble := fun s =>
       if String.eqb s "0" then Some 0
       else if String.eqb s "2" then Some 2
       else if String.eqb s "20" then Some 20
       else if String.eqb s "0.5" then Some 0.5 else None;
     getPipeSection := fun _ => Some bendSect;
     getPipeMaterial := fun _ => Some tt;
     defaultTol := 0.1 |}.

Definition bendCommand : list String.string :=
  ["1"; "1"; "2"; "1"; "1"; "0"; "0"; "0"; "-p"; "2"].

Definition bendCommandOptions : list String.string :=
  ["1"; "1"; "2"; "1"; "1"; "0"; "0"; "0";
   "-T0"; "20"; "-tolWall"; "0.5"; "-p"; "2"].

End BendCommand.

(** ** Explicit forms *)

Ltac unfold_la :=
  cbv [addMatrixTripleProduct addMatrixTransposeVector addMatrixVector
       addMatrix addVector zipWith mmul mvmul transpose column mcols
       mZero vZero mset vset set_nth nth repeat map seq hd length dot Rsum
       fold_right mscale vscale mget vget identity Nat.eqb vadd vsub].

Ltac list_eq :=
  repeat match goal with
         | |- (_ :: _) = (_ :: _) => apply (f_equal2 (@cons _))
         | |- [] = [] => reflexivity
         end.

Ltac abstract_atoms st theta :=
  generalize (cos theta) (sin theta) (cos (theta0 st))
    (cos (theta - theta0 st)) (cos (theta + theta0 st))
    (sin (theta - theta0 st))
    (1 / getInitialLength (theCoordTransf st)) (radius st)
    (1 / (E st * A st)) (1 / (E st * Iz st)) (1 / (E st * Iy st))
    (1 / (G st * Jx st)); intros.

Lemma bx_eq st theta :
  bx st theta =
  let c := cos theta in
  let s := sin theta in
  let L := getInitialLength (theCoordTransf st) in
  let Rad := radius st in
  let H := Rad * (c - cos (theta0 st)) in
  let H0 := Rad * cos (theta0 st) in
  let invL := 1 / L in
  [ [c; (- s) * invL; (- s) * invL; 0; 0; 0];
    [- H; Rad * s * invL - 0.5; Rad * s * invL + 0.5; 0; 0; 0];
    [0; 0; 0; s * H0 * invL - 0.5 * c; s * H0 * invL + 0.5 * c; - s];
    [0; 0; 0; Rad * invL * (1 - cos (theta - theta0 st));
       Rad * invL * (1 - cos (theta + theta0 st)); c];
    [s; c * invL; c * invL; 0; 0; 0];
    [0; 0; 0; invL; invL; 0] ].
Proof. reflexivity. Qed.

Lemma fs_eq st theta :
  fs st theta =
  [ [1 / (E st * A st); 0; 0; 0; 0; 0];
    [0; 1 / (E st * Iz st); 0; 0; 0; 0];
    [0; 0; 1 / (E st * Iy st); 0; 0; 0];
    [0; 0; 0; 1 / (G st * Jx st); 0; 0];
    [0; 0; 0; 0; shear st; 0];
    [0; 0; 0; 0; 0; shear st] ].
Proof.
  unfold fs, shear.
  destruct (Rgt_dec (ALFAV (theSect st)) 99) as [Hs | Hs].
  - destruct (Rgt_dec 0 0) as [H0 | H0]; [lra | reflexivity].
  - destruct (Rgt_dec (ALFAV (theSect st)) 0); reflexivity.
Qed.

(** ** Entries of the vector and matrix operations *)

Lemma nth_zipWith (f : R -> R -> R) (l l' : list R) (i : nat) :
  f 0 0 = 0 -> length l = length l' ->
  nth i (zipWith f l l') 0 = f (nth i l 0) (nth i l' 0).
Proof.
  intros Hf. revert l' i.
  induction l as [|x l IH]; intros [|y l'] i Hlen; simpl in Hlen;
    try discriminate.
  - destruct i; symmetry; exact Hf.
  - destruct i; simpl; [reflexivity | apply IH; lia].
Qed.

Lemma length_zipWith {X Y Z : Type} (f : X -> Y -> Z) l l' :
  length l = length l' -> length (zipWith f l l') = length l.
Proof.
  revert l'; induction l as [|x l IH]; intros [|y l'] Hlen; simpl in *;
    try discriminate; [reflexivity | f_equal; apply IH; lia].
Qed.

Lemma vget_addVector u f v g i :
  length u = length v ->
  vget (addVector u f v g) i = f * vget u i + g * vget v i.
Proof.
  intros Hlen. unfold vget, addVector.
  apply (nth_zipWith (fun x y => f * x + g * y)); [ring | exact Hlen].
Qed.

Lemma length_addVector u f v g :
  length u = length v -> length (addVector u f v g) = length u.
Proof. apply length_zipWith. Qed.

Lemma shape_addMatrix r c a f b g :
  shape r c a -> shape r c b -> shape r c (addMatrix a f b g).
Proof.
  intros [Ha Fa] [Hb Fb]. split.
  - unfold addMatrix. rewrite length_zipWith; congruence.
  - clear Ha Hb. revert b Fb. induction Fa as [|x a Hx Fa IH]; intros b Fb.
    + constructor.
    + destruct b as [|y b]; [constructor|].
      inversion Fb as [|y' b' Hy Fb']; subst. simpl. constructor.
      * rewrite length_addVector; congruence.
      * apply IH; assumption.
Qed.

Lemma mget_addMatrix r c a f b g i j :
  shape r c a -> shape r c b ->
  mget (addMatrix a f b g) i j = f * mget a i j + g * mget b i j.
Proof.
  intros [Ha Fa] [Hb Fb]. unfold mget, addMatrix.
  assert (Hlen : length a = length b) by lia. clear Ha Hb.
  revert b i Fb Hlen.
  induction Fa as [|x a Hx Fa IH]; intros [|y b] i Fb Hlen; simpl in Hlen;
    try discriminate.
  - destruct i, j; simpl; ring.
  - inversion Fb; subst. destruct i; simpl.
    + apply (vget_addVector x f y g j). lia.
    + apply IH; [assumption | lia].
Qed.

Lemma vget_vscale v a i : vget (vscale v a) i = vget v i * a.
Proof.
  unfold vget, vscale.
  rewrite <- (map_nth (fun x => x * a) v 0 i). f_equal. ring.
Qed.

Lemma mget_mscale m a i j : mget (mscale m a) i j = mget m i j * a.
Proof.
  unfold mget, mscale.
  change (@nil R) with (vscale [] a) at 1.
  rewrite (map_nth (fun r => vscale r a) m [] i).
  apply vget_vscale.
Qed.

Lemma shape_mscale r c m a : shape r c m -> shape r c (mscale m a).
Proof.
  intros [Hl Hf]. split.
  - unfold mscale. rewrite length_map. exact Hl.
  - unfold mscale. apply Forall_map.
    eapply Forall_impl; [|exact Hf]. intros row Hr.
    unfold vscale. rewrite length_map. exact Hr.
Qed.

Lemma shape_mZero r c : shape r c (mZero r c).
Proof.
  split.
  - apply repeat_length.
  - apply Forall_forall. intros x Hx. apply repeat_spec in Hx. subst.
    apply repeat_length.
Qed.

Lemma mget_mZero r c i j : mget (mZero r c) i j = 0.
Proof.
  unfold mget, mZero.
  destruct (Nat.lt_ge_cases i r) as [Hi | Hi].
  - rewrite (nth_indep _ [] (repeat 0 c)) by (rewrite repeat_length; lia).
    rewrite nth_repeat.
    destruct (Nat.lt_ge_cases j c) as [Hj | Hj].
    + apply nth_repeat.
    + apply nth_overflow. rewrite repeat_length. lia.
  - rewrite (nth_overflow _ []) by (rewrite repeat_length; lia).
    destruct j; reflexivity.
Qed.

Lemma vget_vZero n i : vget (vZero n) i = 0.
Proof.
  unfold vget, vZero.
  destruct (Nat.lt_ge_cases i n) as [Hi | Hi].
  - apply nth_repeat.
  - apply nth_overflow. rewrite repeat_length. lia.
Qed.

(** A 6-vector and a 6 by 6 matrix are the lists of their entries. *)
Lemma vec6_eta (v : Vector) :
  length v = 6%nat ->
  v = [vget v 0; vget v 1; vget v 2; vget v 3; vget v 4; vget v 5].
Proof.
  intros Hl. do 7 (destruct v as [|? v]; try discriminate Hl). reflexivity.
Qed.

Lemma mat66_eta (m : Matrix) :
  shape 6 6 m ->
  m = map (fun i => map (fun j => mget m i j) (seq 0 6)) (seq 0 6).
Proof.
  intros [Hl Hf].
  do 7 (destruct m as [|? m]; try discriminate Hl).
  repeat match goal with
         | H : Forall _ (_ :: _) |- _ => inversion H; clear H; subst
         end.
  cbv [map seq mget nth].
  repeat match goal with
         | H : length ?r = 6%nat |- _ => rewrite (vec6_eta r H) at 1; clear H
         end.
  reflexivity.
Qed.

Lemma mat66_ext (a b : Matrix) :
  shape 6 6 a -> shape 6 6 b ->
  (forall i j, (i < 6)%nat -> (j < 6)%nat -> mget a i j = mget b i j) ->
  a = b.
Proof.
  intros Ha Hb Hab.
  rewrite (mat66_eta a Ha), (mat66_eta b Hb).
  apply map_ext_in. intros i Hi. apply in_seq in Hi.
  apply map_ext_in. intros j Hj. apply in_seq in Hj.
  apply Hab; lia.
Qed.

Lemma mget_transpose66 (m : Matrix) i j :
  shape 6 6 m -> (i < 6)%nat -> (j < 6)%nat ->
  mget (transpose m) i j = mget m j i.
Proof.
  intros Hm Hi Hj. rewrite (mat66_eta m Hm).
  do 6 (destruct i as [|i]; [do 6 (destruct j as [|j]; [reflexivity|]); lia|]).
  lia.
Qed.

Lemma shape_transpose66 (m : Matrix) : shape 6 6 m -> shape 6 6 (transpose m).
Proof.
  intros Hm. rewrite (mat66_eta m Hm).
  split; [reflexivity|]. cbv [transpose mcols hd map seq length column].
  repeat constructor.
Qed.

(** ** The integrands *)

Lemma fb_triple st theta :
  fb st theta =
  mmul (transpose (bx st theta)) (mmul (fs st theta) (bx st theta)).
Proof.
  unfold fb. rewrite fs_eq, bx_eq. cbv zeta.
  generalize (shear st). abstract_atoms st theta.
  unfold_la. list_eq; ring.
Qed.

Lemma shape_fb st theta : shape 6 6 (fb st theta).
Proof.
  unfold fb. rewrite fs_eq, bx_eq.
  split; [reflexivity | repeat constructor].
Qed.

Lemma fb_symmetric_entries st theta i j :
  (i < 6)%nat -> (j < 6)%nat ->
  mget (fb st theta) i j = mget (fb st theta) j i.
Proof.
  intros Hi Hj. unfold fb. rewrite fs_eq, bx_eq. cbv zeta.
  generalize (shear st). abstract_atoms st theta.
  do 6 (destruct i as [|i];
        [do 6 (destruct j as [|j]; [unfold_la; ring|]); lia|]).
  lia.
Qed.

Lemma ubno_eq st theta :
  ubno st theta =
  mvmul (transpose (bx st theta)) (mvmul (fs st theta) (Spx st theta)).
Proof.
  unfold ubno. rewrite fs_eq, bx_eq. cbv zeta.
  unfold Spx. cbv zeta. generalize (shear st). abstract_atoms st theta.
  unfold_la. list_eq; ring.
Qed.

Lemma length_ubno st theta : length (ubno st theta) = 6%nat.
Proof. unfold ubno. rewrite fs_eq, bx_eq. reflexivity. Qed.

(** ** The Gauss integrator *)

Lemma gaussRule_nth :
  gaussRule =
  map (fun i => (nth (2 * i) gaussPts 0, nth (2 * i + 1) gaussPts 0))
      (seq 0 (length gaussPts / 2)).
Proof. reflexivity. Qed.

Lemma integrateGauss_fold st a b :
  integrateGauss st a b =
  let acc := fold_left (gaussStep st ((b - a) / 2) ((b + a) / 2))
               (seq 0 (length gaussPts / 2)) (mZero 6 6, vZero 6) in
  (mscale (fst acc) (radius st), vscale (snd acc) (radius st)).
Proof.
  unfold integrateGauss, gaussStep. cbv zeta.
  destruct (fold_left _ _ _). reflexivity.
Qed.

Lemma gaussStep_fold st p q (l : list nat) :
  forall resm resv,
    shape 6 6 resm -> length resv = 6%nat ->
    let acc := fold_left (gaussStep st p q) l (resm, resv) in
    shape 6 6 (fst acc) /\ length (snd acc) = 6%nat /\
    (forall i j,
        mget (fst acc) i j =
        mget resm i j +
        Rsum (map (fun k => (nth (2 * k) gaussPts 0 * p) *
                            mget (fb st (p * nth (2 * k + 1) gaussPts 0 + q)) i j)
                  l)) /\
    (forall i,
        vget (snd acc) i =
        vget resv i +
        Rsum (map (fun k => (nth (2 * k) gaussPts 0 * p) *
                            vget (ubno st (p * nth (2 * k + 1) gaussPts 0 + q)) i)
                  l)).
Proof.
  induction l as [|k l IH]; intros resm resv Hm Hv; cbn [fold_left map Rsum fold_right].
  - cbv zeta. cbn [fst snd]. split; [exact Hm|]. split; [exact Hv|].
    split; intros; unfold Rsum; cbn [fold_right]; ring.
  - set (xi := nth (2 * k + 1) gaussPts 0 * p + q).
    set (wi := nth (2 * k) gaussPts 0 * p).
    assert (Hm' : shape 6 6 (addMatrix resm 1 (fb st xi) wi))
      by (apply shape_addMatrix; [exact Hm | apply shape_fb]).
    assert (Hv' : length (addVector resv 1 (ubno st xi) wi) = 6%nat)
      by (rewrite length_addVector; [exact Hv | rewrite length_ubno; exact Hv]).
    specialize (IH _ _ Hm' Hv'). cbv zeta in IH |- *.
    change (gaussStep st p q (resm, resv) k)
      with (addMatrix resm 1 (fb st xi) wi, addVector resv 1 (ubno st xi) wi).
    destruct IH as (IH1 & IH2 & IH3 & IH4).
    split; [exact IH1|]. split; [exact IH2|]. split.
    + intros i j. rewrite IH3.
      rewrite (mget_addMatrix 6 6) by (auto using shape_fb).
      replace (p * nth (2 * k + 1) gaussPts 0 + q) with xi
        by (unfold xi; ring).
      fold wi. unfold Rsum. ring.
    + intros i. rewrite IH4.
      rewrite vget_addVector by (rewrite length_ubno; exact Hv).
      replace (p * nth (2 * k + 1) gaussPts 0 + q) with xi
        by (unfold xi; ring).
      fold wi. unfold Rsum. ring.
Qed.

Lemma Rsum_map_seq_rule (g : R -> R -> R) :
  Rsum (map (fun k => g (nth (2 * k) gaussPts 0) (nth (2 * k + 1) gaussPts 0))
            (seq 0 (length gaussPts / 2))) =
  Rsum (map (fun wx => g (fst wx) (snd wx)) gaussRule).
Proof. rewrite gaussRule_nth, map_map. reflexivity. Qed.

Lemma integrateGauss_entries st a b :
  let res := integrateGauss st a b in
  shape 6 6 (fst res) /\ length (snd res) = 6%nat /\
  (forall i j,
      mget (fst res) i j =
      quadrature a b (fun theta => mget (fb st theta) i j) * radius st) /\
  (forall i,
      vget (snd res) i =
      quadrature a b (fun theta => vget (ubno st theta) i) * radius st).
Proof.
  rewrite integrateGauss_fold. cbv zeta. cbn [fst snd].
  destruct (gaussStep_fold st ((b - a) / 2) ((b + a) / 2)
              (seq 0 (length gaussPts / 2)) (mZero 6 6) (vZero 6)
              (shape_mZero 6 6) eq_refl) as (H1 & H2 & H3 & H4).
  split; [apply shape_mscale, H1|].
  split; [unfold vscale; rewrite length_map; exact H2|]. split.
  - intros i j. rewrite mget_mscale, H3, mget_mZero.
    unfold quadrature. cbv zeta.
    rewrite (Rsum_map_seq_rule
               (fun w x => w * ((b - a) / 2) *
                           mget (fb st ((b - a) / 2 * x + (b + a) / 2)) i j)).
    ring.
  - intros i. rewrite vget_vscale, H4, vget_vZero.
    unfold quadrature. cbv zeta.
    rewrite (Rsum_map_seq_rule
               (fun w x => w * ((b - a) / 2) *
                           vget (ubno st ((b - a) / 2 * x + (b + a) / 2)) i)).
    ring.
Qed.
(** ** Inversion *)

Lemma Invert_Some a k : Invert a = Some k -> is_inverse a k.
Proof.
  unfold Invert.
  destruct (excluded_middle_informative (exists k, is_inverse a k)) as [ex | nex];
    [|discriminate].
  intros Hk. injection Hk as <-.
  exact (proj2_sig (constructive_indefinite_description _ ex)).
Qed.

Lemma Invert_None a : Invert a = None <-> singular a.
Proof.
  unfold Invert, singular.
  destruct (excluded_middle_informative (exists k, is_inverse a k)) as [ex | nex].
  - split; [discriminate | intros Hs; contradiction].
  - split; [intros _; exact nex | reflexivity].
Qed.

Lemma Invert_exists a k : is_inverse a k -> exists k', Invert a = Some k'.
Proof.
  intros Hk. destruct (Invert a) as [k'|] eqn:Hi; [eauto|].
  apply Invert_None in Hi. exfalso. apply Hi. eauto.
Qed.

(** ** Vectors written by [addVector] *)

Lemma addVector_vZero n v g :
  length v = n -> addVector (vZero n) 0 v g = map (fun x => g * x) v.
Proof.
  revert v. induction n as [|n IH]; intros [|x v] Hl; simpl in Hl;
    try discriminate; [reflexivity|].
  unfold addVector, vZero in *. simpl. f_equal; [ring | apply IH; lia].
Qed.

Lemma addVector_overwrite u v :
  length u = length v -> addVector u 0 v 1 = v.
Proof.
  revert v. induction u as [|x u IH]; intros [|y v] Hl; simpl in Hl;
    try discriminate; [reflexivity|].
  unfold addVector in *. simpl. f_equal; [ring | apply IH; lia].
Qed.

Lemma addVector_minus u v : addVector u 1 v (-1) = vsub u v.
Proof.
  revert v. induction u as [|x u IH]; intros [|y v]; try reflexivity.
  unfold addVector, vsub in *. simpl. f_equal; [ring | apply IH].
Qed.

Lemma length_mvmul m v : length (mvmul m v) = length m.
Proof. unfold mvmul. apply length_map. Qed.

Lemma dot_zero_r u n : dot u (repeat 0 n) = 0.
Proof.
  revert n. induction u as [|x u IH]; intros [|n]; try reflexivity.
  unfold dot, Rsum in *. simpl. rewrite IH. ring.
Qed.

Lemma mvmul_zero m n : mvmul m (repeat 0 n) = repeat 0 (length m).
Proof.
  induction m as [|r m IH]; [reflexivity|].
  simpl. rewrite dot_zero_r. f_equal. exact IH.
Qed.

Lemma Zero_v_entries v i : vget (Zero_v v) i = 0.
Proof.
  unfold vget, Zero_v. revert i.
  induction v as [|x v IH]; intros [|i]; simpl; auto.
Qed.

Lemma Zero_m_entries m i j : mget (Zero_m m) i j = 0.
Proof.
  unfold mget, Zero_m. revert i.
  induction m as [|r m IH]; intros [|i]; simpl; auto.
  - destruct j; reflexivity.
  - destruct j; reflexivity.
  - apply Zero_v_entries.
Qed.

(** ** Finite sums *)

Lemma Rsum_map_ext {X : Type} (f g : X -> R) l :
  (forall x, f x = g x) -> Rsum (map f l) = Rsum (map g l).
Proof. intros Hfg. f_equal. apply map_ext. exact Hfg. Qed.

Lemma Rsum_map_zero {X : Type} (f : X -> R) l :
  (forall x, f x = 0) -> Rsum (map f l) = 0.
Proof.
  intros Hf. induction l as [|x l IH]; [reflexivity|].
  unfold Rsum in *. simpl. rewrite Hf, IH. ring.
Qed.

Lemma Rsum_nonneg_zero {X : Type} (f : X -> R) (l : list X) :
  (forall k, In k l -> 0 <= f k) -> Rsum (map f l) = 0 ->
  forall k, In k l -> f k = 0.
Proof.
  induction l as [|a l IH]; intros Hpos Hsum k Hin; [destruct Hin|].
  unfold Rsum in *. cbn [map fold_right] in Hsum.
  assert (Ha : 0 <= f a) by (apply Hpos; left; reflexivity).
  assert (Hl : 0 <= fold_right Rplus 0 (map f l)).
  { clear -Hpos. induction l as [|b l IH]; simpl; [lra|].
    assert (0 <= f b) by (apply Hpos; right; left; reflexivity).
    assert (0 <= fold_right Rplus 0 (map f l)).
    { apply IH. intros k [Hk | Hk]; apply Hpos; [left | right; right]; assumption. }
    lra. }
  destruct Hin as [<- | Hin]; [lra|].
  apply IH; [intros k' Hk'; apply Hpos; right; exact Hk' | lra | exact Hin].
Qed.

Lemma dot_zero_l n v : dot (repeat 0 n) v = 0.
Proof.
  revert v. induction n as [|n IH]; intros [|x v]; try reflexivity.
  unfold dot, Rsum in *. cbn [repeat zipWith fold_right]. rewrite IH. ring.
Qed.

Lemma transpose_symmetric (m : list (list R)) :
  shape 6 6 m ->
  (forall i j, (i < 6)%nat -> (j < 6)%nat -> mget m i j = mget m j i) ->
  transpose m = m.
Proof.
  intros Hm Hsym. apply mat66_ext; [apply shape_transpose66, Hm | exact Hm|].
  intros i j Hi Hj. rewrite mget_transpose66 by assumption. apply Hsym; assumption.
Qed.

(** ** The load assembler *)

Lemma Spx_zero st theta :
  wx st = 0 -> wy st = 0 -> wz st = 0 -> Spx st theta = vZero 6.
Proof.
  intros Hx Hy Hz. unfold Spx. rewrite Hx, Hy, Hz. cbv zeta.
  cbv [vset set_nth vZero repeat]. list_eq; ring.
Qed.

Lemma ubno_zero st theta :
  wx st = 0 -> wy st = 0 -> wz st = 0 -> ubno st theta = vZero 6.
Proof.
  intros Hx Hy Hz. rewrite ubno_eq, Spx_zero by assumption.
  unfold vZero. rewrite bx_eq, fs_eq. cbv zeta.
  generalize (shear st). abstract_atoms st theta.
  unfold_la. list_eq; ring.
Qed.

Lemma integrateGauss_zero_load st a b :
  wx st = 0 -> wy st = 0 -> wz st = 0 ->
  snd (integrateGauss st a b) = vZero 6.
Proof.
  intros Hx Hy Hz.
  destruct (integrateGauss_entries st a b) as (_ & Hl & _ & Hv).
  rewrite (vec6_eta _ Hl). rewrite !Hv.
  unfold quadrature. cbv zeta.
  rewrite !Rsum_map_zero;
    try (intros wxp; rewrite ubno_zero by assumption;
         cbv [vget vZero repeat nth]; ring).
  cbv [vZero repeat]. list_eq; ring.
Qed.

Lemma shape_flexibility st : shape 6 6 (flexibility st).
Proof. apply integrateGauss_entries. Qed.

Lemma length_ubnoGauss st : length (ubnoGauss st) = 6%nat.
Proof. apply integrateGauss_entries. Qed.

Section Assembler.
Context `{PipeBase}.

Lemma kb_ub0_lockedDeformation st u :
  length u = 6%nat -> kb_ub0 st u = lockedDeformation st u.
Proof.
  intros Hu. rewrite (vec6_eta u Hu).
  generalize (vget u 0) (vget u 1) (vget u 2) (vget u 3) (vget u 4) (vget u 5).
  intros u0 u1 u2 u3 u4 u5.
  unfold kb_ub0, lockedDeformation, thermalTerm, pressureAxial,
    pressureBending, thinWallTerm, curvatureTerm, pressureBTA.
  cbv zeta.
  destruct (Rgt_dec (aveTemp st) 0), (Req_dec_T (pressure st) 0);
    cbv [vset vget set_nth nth]; list_eq; ring.
Qed.

(** [kb] step by step: the two refreshes, then the inversion. *)
Lemma kb_eq st :
  kb st =
  let r1 := updateSectionData st in
  let r2 := updateMaterialData (snd r1) in
  if (fst r1 <? 0)%Z then (None, snd r1) else
  if (fst r2 <? 0)%Z then (None, snd r2) else
  match Invert (flexibility st) with
  | None => (None, snd r2)
  | Some mat =>
      (Some (mat, addMatrixVector (vZero 6) 0 mat
                    (kb_ub0 (snd r2) (ubnoGauss st)) (-1)), snd r2)
  end.
Proof.
  unfold kb, flexibility, ubnoGauss. cbv zeta.
  destruct (integrateGauss st (- theta0 st) (theta0 st)) as [fbmat ubnovec].
  destruct (updateSectionData st) as [rc1 st1]. cbn [fst snd].
  destruct (rc1 <? 0)%Z; [reflexivity|].
  destruct (updateMaterialData st1) as [rc2 st2]. cbn [fst snd].
  reflexivity.
Qed.

Lemma kb_success st k pb0 :
  fst (kb st) = Some (k, pb0) ->
  Invert (flexibility st) = Some k /\
  pb0 = addMatrixVector (vZero 6) 0 k
          (kb_ub0 (snd (kb st)) (ubnoGauss st)) (-1).
Proof.
  rewrite kb_eq. cbv zeta.
  destruct (fst (updateSectionData st) <? 0)%Z; [discriminate|].
  destruct (fst (updateMaterialData (snd (updateSectionData st))) <? 0)%Z;
    [discriminate|].
  destruct (Invert (flexibility st)) as [mat|]; [|discriminate].
  cbn [fst snd]. intros Hk. injection Hk as <- <-.
  split; reflexivity.
Qed.

Lemma kb_singular st : singular (flexibility st) -> fst (kb st) = None.
Proof.
  intros Hs. apply Invert_None in Hs. rewrite kb_eq. cbv zeta.
  destruct (fst (updateSectionData st) <? 0)%Z; [reflexivity|].
  destruct (fst (updateMaterialData (snd (updateSectionData st))) <? 0)%Z;
    [reflexivity|].
  rewrite Hs. reflexivity.
Qed.

Lemma kb_pb0 st k pb0 :
  fst (kb st) = Some (k, pb0) ->
  is_inverse (flexibility st) k /\ shape 6 6 k /\
  pb0 = map Ropp (mvmul k (lockedDeformation (snd (kb st)) (ubnoGauss st))).
Proof.
  intros Hk. apply kb_success in Hk.
  destruct Hk as [Hinv ->]. apply Invert_Some in Hinv.
  assert (Hsh : shape 6 6 k).
  { destruct Hinv as [Hsh _].
    rewrite (proj1 (shape_flexibility st)) in Hsh. exact Hsh. }
  split; [exact Hinv|]. split; [exact Hsh|].
  rewrite kb_ub0_lockedDeformation by apply length_ubnoGauss.
  unfold addMatrixVector.
  rewrite addVector_vZero by (rewrite length_mvmul; apply Hsh).
  apply map_ext. intros x. ring.
Qed.

Lemma kb_zero_load_ub0 st :
  wx st = 0 -> wy st = 0 -> wz st = 0 ->
  pressure (snd (kb st)) = 0 -> aveTemp (snd (kb st)) = 0 ->
  kb_ub0 (snd (kb st)) (ubnoGauss st) = [0; 0; 0; 0; 0; 0].
Proof.
  intros Hx Hy Hz Hp HT.
  rewrite kb_ub0_lockedDeformation by apply length_ubnoGauss.
  unfold ubnoGauss. rewrite integrateGauss_zero_load by assumption.
  unfold lockedDeformation, thermalTerm, pressureAxial, pressureBending.
  rewrite Hp, HT.
  destruct (Rgt_dec 0 0) as [Hgt | _]; [lra|].
  destruct (Req_dec_T 0 0) as [_ | Hne]; [|contradiction].
  cbv [vget vZero repeat nth]. list_eq; ring.
Qed.

(** C1.  Whenever the integrated flexibility matrix is singular [kb]
    returns the error; and for every call to [kb] that succeeds, the
    locked deformation vector is the Gauss-integrated [ubno] with
    2*R*alp*dT*sin(theta0) added to component 0 when dT > 0 and with the
    closed-form pressure corrections added to components 0, 1 and 2 when
    the pressure is not zero, components 3, 4 and 5 being left as
    integrated; the basic stiffness is the inverse of the integrated
    flexibility matrix and the basic equivalent load is minus the basic
    stiffness times the locked deformation vector. *)
Theorem kb_locked_deformation (st : CurvedPipe) :
  (singular (flexibility st) -> fst (kb st) = None) /\
  (forall mat vec,
      fst (kb st) = Some (mat, vec) ->
      let st' := snd (kb st) in
      let dT := aveTemp st' in
      let ubnovec := ubnoGauss st in
      let ub := kb_ub0 st' ubnovec in
      length ub = 6%nat /\
      vget ub 0 =
        vget ubnovec 0 +
        (if Rgt_dec dT 0
         then 2 * radius st' * alp st' * dT * sin (theta0 st') else 0) +
        (if Req_dec_T (pressure st') 0 then 0
         else thinWallTerm st' + curvatureTerm st') /\
      vget ub 1 =
        vget ubnovec 1 -
        (if Req_dec_T (pressure st') 0 then 0
         else radius st' * pressureBTA st' * theta0 st') /\
      vget ub 2 =
        vget ubnovec 2 +
        (if Req_dec_T (pressure st') 0 then 0
         else radius st' * pressureBTA st' * theta0 st') /\
      vget ub 3 = vget ubnovec 3 /\
      vget ub 4 = vget ubnovec 4 /\
      vget ub 5 = vget ubnovec 5 /\
      is_inverse (flexibility st) mat /\
      vec = map Ropp (mvmul mat ub)).
Proof.
  split; [apply kb_singular|].
  intros mat vec Hk. cbv zeta.
  destruct (kb_pb0 st mat vec Hk) as (Hinv & Hsh & Hvec).
  rewrite kb_ub0_lockedDeformation by apply length_ubnoGauss.
  revert Hvec. generalize (ubnoGauss st) (snd (kb st)). intros u st' Hvec.
  repeat (split; [reflexivity|]).
  split; [exact Hinv | exact Hvec].
Qed.

(** C7.  With the distributed loads wx, wy, wz all zero, and zero
    pressure and zero temperature differential as [kb] reads them after
    its refresh, a successful [kb] has the zero 6-vector as locked
    deformation vector and returns the zero 6-vector as basic equivalent
    load. *)
Theorem kb_zero_load (st : CurvedPipe) (mat : list (list R)) (vec : list R) :
  wx st = 0 -> wy st = 0 -> wz st = 0 ->
  fst (kb st) = Some (mat, vec) ->
  pressure (snd (kb st)) = 0 ->
  aveTemp (snd (kb st)) = 0 ->
  kb_ub0 (snd (kb st)) (ubnoGauss st) = [0; 0; 0; 0; 0; 0] /\
  vec = [0; 0; 0; 0; 0; 0].
Proof.
  intros Hx Hy Hz Hk Hp HT.
  destruct (kb_pb0 st mat vec Hk) as (Hinv & Hsh & Hvec).
  assert (Hub := kb_zero_load_ub0 st Hx Hy Hz Hp HT).
  split; [exact Hub|].
  rewrite Hvec.
  rewrite <- kb_ub0_lockedDeformation by apply length_ubnoGauss.
  rewrite Hub. change [0; 0; 0; 0; 0; 0] with (repeat 0 6).
  rewrite mvmul_zero. rewrite (proj1 Hsh). cbv [repeat map]. list_eq; ring.
Qed.

End Assembler.

(** ** The geometry solver *)

Lemma getTheta0_cases (st : CurvedPipe) :
  let R1 := Norm (vsub (center st) (getCrds (fst (theNodes st)))) in
  let R2 := Norm (vsub (center st) (getCrds (snd (theNodes st)))) in
  let rad := (R1 + R2) / 2 in
  let Lhalf := getInitialLength (theCoordTransf st) / 2 in
  (geometryFails st /\
   getTheta0 st = ((-1)%Z, set_radius st rad) /\
   theta0 (snd (getTheta0 st)) = theta0 st) \/
  (~ geometryFails st /\
   getTheta0 st = (0%Z, set_theta0 (set_radius st rad) (asin (Lhalf / rad)))).
Proof.
  unfold geometryFails, getTheta0. cbv zeta.
  cbn [radius set_radius theSect tolWall theCoordTransf].
  set (R1 := Norm (vsub (center st) (getCrds (fst (theNodes st))))).
  set (R2 := Norm (vsub (center st) (getCrds (snd (theNodes st))))).
  destruct (Rle_dec ((R1 + R2) / 2) 0) as [H1 | H1].
  { left. auto. }
  destruct (Rgt_dec (Rabs (R1 - R2)) (tolWall st * WALL (theSect st))) as [H2 | H2].
  { left. auto. }
  destruct (Rgt_dec (getInitialLength (theCoordTransf st) / 2)
              (0.99985 * ((R1 + R2) / 2))) as [H3 | H3].
  { left. auto. }
  right. split; [tauto | reflexivity].
Qed.

(** C3.  The geometry solver takes R1 and R2 as the distances from the
    center to the two nodes and stores radius = (R1 + R2) / 2; it fails,
    with status -1 and theta0 as it was, exactly when radius <= 0, or
    |R1 - R2| > tolWall * wall thickness, or the half chord length
    exceeds 0.99985 * radius; otherwise it returns 0 and stores
    theta0 = asin (half chord length / radius). *)
Theorem getTheta0_fails_exactly (st : CurvedPipe) :
  let R1 := Norm (vsub (center st) (getCrds (fst (theNodes st)))) in
  let R2 := Norm (vsub (center st) (getCrds (snd (theNodes st)))) in
  let rad := (R1 + R2) / 2 in
  let Lhalf := getInitialLength (theCoordTransf st) / 2 in
  let fails :=
    rad <= 0 \/ Rabs (R1 - R2) > tolWall st * WALL (theSect st) \/
    Lhalf > 0.99985 * rad in
  radius (snd (getTheta0 st)) = rad /\
  ((fst (getTheta0 st) < 0)%Z <-> fails) /\
  ((fails /\
    getTheta0 st = ((-1)%Z, set_radius st rad) /\
    theta0 (snd (getTheta0 st)) = theta0 st) \/
   (~ fails /\
    getTheta0 st =
      (0%Z, set_theta0 (set_radius st rad) (asin (Lhalf / rad))) /\
    theta0 (snd (getTheta0 st)) = asin (Lhalf / rad))).
Proof.
  intros R1 R2 rad Lhalf fails.
  assert (Hcases := getTheta0_cases st).
  unfold geometryFails in Hcases. cbv zeta in Hcases.
  fold R1 R2 in Hcases. fold rad Lhalf in Hcases. fold fails in Hcases.
  destruct Hcases as [(Hf & Heq & Hth) | (Hnf & Heq)]; rewrite Heq.
  - cbn [fst snd]. split; [reflexivity|]. split.
    + split; [intros _; exact Hf | intros _; lia].
    + left. split; [exact Hf|]. split; [reflexivity|].
      rewrite Heq in Hth. exact Hth.
  - cbn [fst snd]. split; [reflexivity|]. split.
    + split; [intros Hlt; lia | intros Hf; contradiction].
    + right. split; [exact Hnf|]. split; reflexivity.
Qed.

Lemma asin_nonneg x : 0 <= x <= 1 -> 0 <= asin x.
Proof.
  intros Hx.
  destruct (Rle_lt_dec 0 (asin x)) as [Hge | Hlt]; [exact Hge|].
  exfalso.
  assert (Hb := asin_bound x).
  assert (Hs : sin (asin x) < 0).
  { apply sin_lt_0_var; [|exact Hlt]. pose proof PI_RGT_0. lra. }
  rewrite sin_asin in Hs by lra. lra.
Qed.

(** C10.  On every successful run of the geometry solver, for a
    non-negative chord length, the radius is positive and the argument
    of asin lies in [0, 0.99985], so its absolute value is at most
    0.99985; theta0 is the angle in [0, PI/2) whose sine is that
    argument. *)
Theorem getTheta0_asin_domain (st : CurvedPipe) :
  0 <= getInitialLength (theCoordTransf st) ->
  fst (getTheta0 st) = 0%Z ->
  let st' := snd (getTheta0 st) in
  let x := getInitialLength (theCoordTransf st) / 2 / radius st' in
  0 < radius st' /\
  0 <= x <= 0.99985 /\ Rabs x <= 0.99985 /\
  theta0 st' = asin x /\ sin (theta0 st') = x /\
  0 <= theta0 st' < PI / 2.
Proof.
  intros HL Hok.
  destruct (getTheta0_cases st) as [(_ & Heq & _) | (Hnf & Heq)];
    rewrite Heq in *; [discriminate Hok|].
  cbv zeta. cbn [snd theta0 radius set_theta0 set_radius].
  unfold geometryFails in Hnf. cbv zeta in Hnf.
  set (rad := (Norm (vsub (center st) (getCrds (fst (theNodes st)))) +
               Norm (vsub (center st) (getCrds (snd (theNodes st))))) / 2) in *.
  set (L := getInitialLength (theCoordTransf st)) in *.
  assert (Hrad : 0 < rad) by lra.
  assert (Hx : 0 <= L / 2 / rad <= 0.99985).
  { split.
    - apply Rmult_le_pos; [lra | left; apply Rinv_0_lt_compat; exact Hrad].
    - apply Rmult_le_reg_r with rad; [exact Hrad|].
      unfold Rdiv at 1. rewrite Rmult_assoc, Rinv_l by lra. lra. }
  split; [exact Hrad|]. split; [exact Hx|].
  split; [apply Rabs_le; lra|].
  split; [reflexivity|].
  split; [apply sin_asin; lra|].
  split; [apply asin_nonneg; lra|].
  apply asin_bound_lt. lra.
Qed.

(** ** The section flexibility and the Gauss integrator *)

(** C5.  At every angular position [fs] is a 6 by 6 matrix with zero
    off-diagonal entries and the diagonal 1/(E*A), 1/(E*Iz), 1/(E*Iy),
    1/(G*Jx), followed by two shear entries that are alphaV/(G*A) when
    0 < alphaV <= 99 and zero when alphaV > 99 or alphaV <= 0; it does
    not depend on the angular position.  (The source writes the shear
    entries as 1/(G*(A/alphaV)); the two quotients agree, also where
    G*A = 0 and both are the same division by zero.) *)
Theorem fs_diagonal (st : CurvedPipe) (theta : R) :
  let alphaV := ALFAV (theSect st) in
  (forall i j, i <> j -> mget (fs st theta) i j = 0) /\
  mget (fs st theta) 0 0 = 1 / (E st * A st) /\
  mget (fs st theta) 1 1 = 1 / (E st * Iz st) /\
  mget (fs st theta) 2 2 = 1 / (E st * Iy st) /\
  mget (fs st theta) 3 3 = 1 / (G st * Jx st) /\
  (0 < alphaV <= 99 ->
   mget (fs st theta) 4 4 = alphaV / (G st * A st) /\
   mget (fs st theta) 5 5 = alphaV / (G st * A st)) /\
  (alphaV > 99 \/ alphaV <= 0 ->
   mget (fs st theta) 4 4 = 0 /\ mget (fs st theta) 5 5 = 0) /\
  (forall theta', fs st theta' = fs st theta).
Proof.
  cbv zeta. rewrite fs_eq.
  split.
  { intros i j Hij.
    do 6 (destruct i as [|i];
          [do 6 (destruct j as [|j]; [first [reflexivity | contradiction]|]);
           destruct j; reflexivity|]).
    destruct i, j; reflexivity. }
  do 4 (split; [reflexivity|]).
  cbv [mget nth]. unfold shear.
  split; [|split].
  - intros [Hpos Hle].
    destruct (Rgt_dec (ALFAV (theSect st)) 99) as [Hs | Hs]; [lra|].
    destruct (Rgt_dec (ALFAV (theSect st)) 0) as [Hp | Hp]; [|lra].
    assert (Heq : 1 / (G st * (A st / ALFAV (theSect st))) =
                  ALFAV (theSect st) / (G st * A st)).
    { unfold Rdiv. rewrite !Rinv_mult, Rinv_inv. ring. }
    split; exact Heq.
  - intros [Hs | Hs].
    + destruct (Rgt_dec (ALFAV (theSect st)) 99); [split; reflexivity | lra].
    + destruct (Rgt_dec (ALFAV (theSect st)) 99); [split; reflexivity|].
      destruct (Rgt_dec (ALFAV (theSect st)) 0); [lra | split; reflexivity].
  - intros theta'. apply fs_eq.
Qed.

(** C6.  [fs] is symmetric, and so are fb(theta) = bx^T fs bx at every
    angular position and the Gauss-integrated flexibility matrix: each
    equals its own transpose. *)
Theorem fb_symmetric (st : CurvedPipe) (theta a b : R) :
  transpose (fs st theta) = fs st theta /\
  transpose (fb st theta) = fb st theta /\
  transpose (fst (integrateGauss st a b)) = fst (integrateGauss st a b).
Proof.
  split; [rewrite fs_eq; reflexivity|]. split.
  - apply transpose_symmetric; [apply shape_fb|].
    intros i j. apply fb_symmetric_entries.
  - destruct (integrateGauss_entries st a b) as (Hs & _ & Hm & _).
    apply transpose_symmetric; [exact Hs|].
    intros i j Hi Hj. rewrite !Hm. f_equal.
    unfold quadrature. cbv zeta. apply Rsum_map_ext.
    intros wx. f_equal. apply fb_symmetric_entries; assumption.
Qed.

(** C2.  The table holds the 20 points of the rule as (weight,
    abscissa) pairs; fb(theta) = bx^T fs bx and ubno(theta) = bx^T fs Spx;
    and for all bounds a and b, so for (-theta0, theta0), [integrateGauss]
    returns a 6 by 6 matrix and a 6-vector whose entries are the sums,
    from zero, over the 20 points xi = p * abscissa + q, p = (b - a) / 2,
    q = (b + a) / 2, of the entries of fb(xi) and of ubno(xi) scaled by
    weight * p, times the radius. *)
Theorem integrateGauss_quadrature (st : CurvedPipe) (a b : R) :
  length gaussRule = 20%nat /\
  gaussPts = flat_map (fun wx => [fst wx; snd wx]) gaussRule /\
  (forall theta,
      fb st theta =
      mmul (transpose (bx st theta)) (mmul (fs st theta) (bx st theta))) /\
  (forall theta,
      ubno st theta =
      mvmul (transpose (bx st theta)) (mvmul (fs st theta) (Spx st theta))) /\
  let res := integrateGauss st a b in
  shape 6 6 (fst res) /\ length (snd res) = 6%nat /\
  (forall i j,
      mget (fst res) i j =
      quadrature a b (fun theta => mget (fb st theta) i j) * radius st) /\
  (forall i,
      vget (snd res) i =
      quadrature a b (fun theta => vget (ubno st theta) i) * radius st).
Proof.
  split; [reflexivity|]. split; [reflexivity|].
  split; [intros theta; apply fb_triple|].
  split; [intros theta; apply ubno_eq|].
  apply integrateGauss_entries.
Qed.

(** ** The integrated flexibility matrix is invertible *)

Lemma quadForm_ext e e' x :
  (forall i j, e i j = e' i j) -> quadForm e x = quadForm e' x.
Proof. intros Hee. unfold quadForm, rowApply. rewrite !Hee. reflexivity. Qed.

Lemma quadForm_Rsum {X : Type} (c : X -> R) (F : X -> nat -> nat -> R)
  (l : list X) (r : R) (x : nat -> R) :
  quadForm (fun i j => Rsum (map (fun k => c k * F k i j) l) * r) x =
  Rsum (map (fun k => c k * quadForm (F k) x) l) * r.
Proof.
  induction l as [|k l IH].
  - unfold quadForm, rowApply, Rsum. simpl. ring.
  - cbn [map]. unfold Rsum in *. cbn [fold_right].
    rewrite Rmult_plus_distr_r, <- IH.
    unfold quadForm, rowApply. ring.
Qed.

Lemma quadForm_fb st theta x :
  quadForm (mget (fb st theta)) x =
  1 / (E st * A st) * (bxRow st theta x 0)² +
  1 / (E st * Iz st) * (bxRow st theta x 1)² +
  1 / (E st * Iy st) * (bxRow st theta x 2)² +
  1 / (G st * Jx st) * (bxRow st theta x 3)² +
  shear st * (bxRow st theta x 4)² +
  shear st * (bxRow st theta x 5)².
Proof.
  unfold bxRow, fb. rewrite fs_eq, bx_eq. cbv zeta.
  generalize (shear st). abstract_atoms st theta.
  unfold quadForm, rowApply, Rsqr. unfold_la. ring.
Qed.

Lemma shear_nonneg st : 0 <= G st * A st -> 0 <= shear st.
Proof.
  intros HGA. unfold shear.
  destruct (Rgt_dec (ALFAV (theSect st)) 99); [lra|].
  destruct (Rgt_dec (ALFAV (theSect st)) 0) as [Hp | Hp]; [|lra].
  replace (1 / (G st * (A st / ALFAV (theSect st))))
    with (ALFAV (theSect st) * / (G st * A st))
    by (unfold Rdiv; rewrite !Rinv_mult, Rinv_inv; ring).
  apply Rmult_le_pos; [lra|].
  destruct HGA as [HGA | HGA].
  - left. apply Rinv_0_lt_compat. exact HGA.
  - rewrite <- HGA, Rinv_0. lra.
Qed.

Lemma gaussRule_weights_pos wx : In wx gaussRule -> 0 < fst wx.
Proof.
  unfold gaussRule. intros Hin.
  repeat (destruct Hin as [<- | Hin]; [cbn [fst]; lra|]).
  destruct Hin.
Qed.

Lemma sqr_term_zero d f : 0 < d -> d * f² = 0 -> f = 0.
Proof.
  intros Hd Hdf. apply Rsqr_0_uniq.
  destruct (Rmult_integral _ _ Hdf) as [Hd0 | Hf]; [lra | exact Hf].
Qed.

Lemma quadForm_fb_zero st theta x :
  admissible st ->
  quadForm (mget (fb st theta)) x = 0 ->
  bxRow st theta x 0 = 0 /\ bxRow st theta x 1 = 0 /\
  bxRow st theta x 2 = 0 /\ bxRow st theta x 3 = 0.
Proof.
  intros (_ & _ & _ & HA & HIz & HIy & HJ & HGA) Hq.
  rewrite quadForm_fb in Hq.
  assert (Hs := shear_nonneg st HGA).
  assert (H0 : 0 < 1 / (E st * A st)) by (apply Rdiv_lt_0_compat; lra).
  assert (H1 : 0 < 1 / (E st * Iz st)) by (apply Rdiv_lt_0_compat; lra).
  assert (H2 : 0 < 1 / (E st * Iy st)) by (apply Rdiv_lt_0_compat; lra).
  assert (H3 : 0 < 1 / (G st * Jx st)) by (apply Rdiv_lt_0_compat; lra).
  set (a0 := 1 / (E st * A st)) in *. set (a1 := 1 / (E st * Iz st)) in *.
  set (a2 := 1 / (E st * Iy st)) in *. set (a3 := 1 / (G st * Jx st)) in *.
  assert (P0 : 0 <= a0 * (bxRow st theta x 0)²)
    by (apply Rmult_le_pos; [lra | apply Rle_0_sqr]).
  assert (P1 : 0 <= a1 * (bxRow st theta x 1)²)
    by (apply Rmult_le_pos; [lra | apply Rle_0_sqr]).
  assert (P2 : 0 <= a2 * (bxRow st theta x 2)²)
    by (apply Rmult_le_pos; [lra | apply Rle_0_sqr]).
  assert (P3 : 0 <= a3 * (bxRow st theta x 3)²)
    by (apply Rmult_le_pos; [lra | apply Rle_0_sqr]).
  assert (P4 : 0 <= shear st * (bxRow st theta x 4)²)
    by (apply Rmult_le_pos; [lra | apply Rle_0_sqr]).
  assert (P5 : 0 <= shear st * (bxRow st theta x 5)²)
    by (apply Rmult_le_pos; [lra | apply Rle_0_sqr]).
  split; [apply (sqr_term_zero a0); lra|].
  split; [apply (sqr_term_zero a1); lra|].
  split; [apply (sqr_term_zero a2); lra | apply (sqr_term_zero a3); lra].
Qed.

Lemma quadForm_fb_nonneg st theta x :
  admissible st -> 0 <= quadForm (mget (fb st theta)) x.
Proof.
  intros (_ & _ & _ & HA & HIz & HIy & HJ & HGA).
  rewrite quadForm_fb.
  assert (Hs := shear_nonneg st HGA).
  assert (H0 : 0 < 1 / (E st * A st)) by (apply Rdiv_lt_0_compat; lra).
  assert (H1 : 0 < 1 / (E st * Iz st)) by (apply Rdiv_lt_0_compat; lra).
  assert (H2 : 0 < 1 / (E st * Iy st)) by (apply Rdiv_lt_0_compat; lra).
  assert (H3 : 0 < 1 / (G st * Jx st)) by (apply Rdiv_lt_0_compat; lra).
  repeat apply Rplus_le_le_0_compat;
    (apply Rmult_le_pos; [lra | apply Rle_0_sqr]).
Qed.

(** The basic forces that produce no internal force at the two Gauss
    points nearest the middle of the arc are zero. *)
Lemma bxRow_zero st t x :
  admissible st -> 0 < t < PI / 2 ->
  bxRow st t x 0 = 0 -> bxRow st (- t) x 0 = 0 -> bxRow st t x 1 = 0 ->
  bxRow st t x 2 = 0 -> bxRow st (- t) x 2 = 0 -> bxRow st t x 3 = 0 ->
  x 0%nat = 0 /\ x 1%nat = 0 /\ x 2%nat = 0 /\
  x 3%nat = 0 /\ x 4%nat = 0 /\ x 5%nat = 0.
Proof.
  intros (HR & Hth & HL & _) Ht.
  unfold bxRow, rowApply. rewrite !bx_eq. cbv zeta. cbv [mget nth].
  rewrite sin_neg, cos_neg, cos_minus, cos_plus.
  assert (Hc : 0 < cos t) by (apply cos_gt_0; lra).
  assert (Hs : 0 < sin t) by (apply sin_gt_0; lra).
  assert (HiL : 0 < 1 / getInitialLength (theCoordTransf st))
    by (apply Rdiv_lt_0_compat; lra).
  generalize dependent (1 / getInitialLength (theCoordTransf st)).
  generalize dependent (cos t). generalize dependent (sin t).
  generalize (cos (theta0 st)) (sin (theta0 st)).
  generalize dependent (radius st).
  generalize (x 0%nat) (x 1%nat) (x 2%nat) (x 3%nat) (x 4%nat) (x 5%nat).
  intros x0 x1 x2 x3 x4 x5 Rad HR c0 s0 s Hs c Hc iL HiL.
  intros F0 F0' F1 F2 F2' F3.
  assert (E0 : c * x0 = 0) by lra.
  assert (X0 : x0 = 0)
    by (destruct (Rmult_integral _ _ E0); [lra | assumption]).
  subst x0.
  assert (E12 : (s * iL) * (x1 + x2) = 0) by lra.
  assert (X12 : x1 + x2 = 0).
  { destruct (Rmult_integral _ _ E12) as [Hz | Hz]; [|exact Hz].
    destruct (Rmult_integral _ _ Hz); lra. }
  assert (X1 : x1 = 0).
  { replace x2 with (- x1) in F1 by lra. lra. }
  assert (X2 : x2 = 0) by lra. subst x1 x2.
  assert (E34 : c * (x4 - x3) = 0) by lra.
  assert (X34 : x4 = x3)
    by (destruct (Rmult_integral _ _ E34); lra).
  subst x4.
  assert (E5 : s * (2 * (Rad * c0 * iL) * x3 - x5) = 0) by lra.
  assert (X5 : x5 = 2 * (Rad * c0 * iL) * x3)
    by (destruct (Rmult_integral _ _ E5); lra).
  subst x5.
  assert (E3 : (Rad * iL) * x3 = 0) by lra.
  assert (X3 : x3 = 0).
  { destruct (Rmult_integral _ _ E3) as [Hz | Hz]; [|exact Hz].
    destruct (Rmult_integral _ _ Hz); lra. }
  subst x3. repeat split; lra.
Qed.

Lemma flexibility_entries st i j :
  mget (flexibility st) i j =
  Rsum (map (fun wx => fst wx * theta0 st *
                       mget (fb st (theta0 st * snd wx)) i j) gaussRule) *
  radius st.
Proof.
  unfold flexibility.
  destruct (integrateGauss_entries st (- theta0 st) (theta0 st))
    as (_ & _ & Hm & _).
  rewrite Hm. unfold quadrature. cbv zeta. f_equal. f_equal.
  apply map_ext. intros wx.
  replace ((theta0 st - - theta0 st) / 2) with (theta0 st) by lra.
  replace ((theta0 st + - theta0 st) / 2) with 0 by lra.
  rewrite Rplus_0_r. reflexivity.
Qed.

Lemma flexibility_kernel st x :
  admissible st ->
  (forall i, (i < 6)%nat -> rowApply (mget (flexibility st)) x i = 0) ->
  x 0%nat = 0 /\ x 1%nat = 0 /\ x 2%nat = 0 /\
  x 3%nat = 0 /\ x 4%nat = 0 /\ x 5%nat = 0.
Proof.
  intros Hadm Hker.
  assert (Hq : quadForm (mget (flexibility st)) x = 0).
  { unfold quadForm. rewrite !Hker by lia. ring. }
  rewrite (quadForm_ext _ _ x (flexibility_entries st)) in Hq.
  rewrite (quadForm_Rsum (fun wx => fst wx * theta0 st)
             (fun wx => mget (fb st (theta0 st * snd wx)))) in Hq.
  destruct Hadm as (HR & Hth & Hrest).
  assert (Hadm : admissible st) by (unfold admissible; tauto).
  apply Rmult_integral in Hq. destruct Hq as [Hq | Hq]; [|lra].
  assert (Hz := Rsum_nonneg_zero _ _
    (fun wx Hin =>
       Rmult_le_pos _ _
         (Rlt_le _ _ (Rmult_lt_0_compat _ _ (gaussRule_weights_pos wx Hin)
                        (proj1 Hth)))
         (quadForm_fb_nonneg st (theta0 st * snd wx) x Hadm)) Hq).
  set (t := 0.0765265211334973 * theta0 st).
  assert (Ht : 0 < t < PI / 2) by (unfold t; lra).
  assert (Hneg : quadForm (mget (fb st (- t))) x = 0).
  { specialize (Hz (0.1527533871307258, -0.0765265211334973)).
    cbn [fst snd] in Hz.
    replace (theta0 st * -0.0765265211334973) with (- t) in Hz
      by (unfold t; lra).
    assert (Hin : In (0.1527533871307258, -0.0765265211334973) gaussRule)
      by (left; reflexivity).
    specialize (Hz Hin).
    apply Rmult_integral in Hz. destruct Hz as [Hz | Hz]; [lra | exact Hz]. }
  assert (Hpos : quadForm (mget (fb st t)) x = 0).
  { specialize (Hz (0.1527533871307258, 0.0765265211334973)).
    cbn [fst snd] in Hz.
    replace (theta0 st * 0.0765265211334973) with t in Hz
      by (unfold t; lra).
    assert (Hin : In (0.1527533871307258, 0.0765265211334973) gaussRule)
      by (right; left; reflexivity).
    specialize (Hz Hin).
    apply Rmult_integral in Hz. destruct Hz as [Hz | Hz]; [lra | exact Hz]. }
  apply (quadForm_fb_zero st _ x Hadm) in Hneg, Hpos.
  apply (bxRow_zero st t x Hadm Ht); tauto.
Qed.

(** A 3 by 3 matrix with a trivial kernel has a nonzero determinant. *)
Lemma det3_nonzero a b c d e f g h i :
  (forall x y z,
      a * x + b * y + c * z = 0 -> d * x + e * y + f * z = 0 ->
      g * x + h * y + i * z = 0 -> x = 0 /\ y = 0 /\ z = 0) ->
  det3 a b c d e f g h i <> 0.
Proof.
  unfold det3. intros Hinj Hdet.
  destruct (Hinj (e * i - f * h) (- (d * i - f * g)) (d * h - e * g))
    as (M1 & M2 & M3); try lra.
  destruct (Hinj (- (b * i - c * h)) (a * i - c * g) (- (a * h - b * g)))
    as (M4 & M5 & M6); try lra.
  destruct (Hinj (b * f - c * e) (- (a * f - c * d)) (a * e - b * d))
    as (M7 & M8 & M9); try lra.
  destruct (Hinj b (- a) 0) as (Hb & Ha & _); try lra.
  destruct (Hinj c 0 (- a)) as (Hc & _ & _); try lra.
  destruct (Hinj e (- d) 0) as (He & Hd & _); try lra.
  destruct (Hinj f 0 (- d)) as (Hf & _ & _); try lra.
  destruct (Hinj h (- g) 0) as (Hh & Hg & _); try lra.
  destruct (Hinj i 0 (- g)) as (Hi & _ & _); try lra.
  destruct (Hinj 1 0 0) as (H1 & _ & _); subst; lra.
Qed.

(** The in-plane and the out-of-plane parts of [fb] are uncoupled. *)
Lemma fb_offBlock st theta i j :
  offBlock i j = true -> mget (fb st theta) i j = 0.
Proof.
  intros Hij. unfold fb. rewrite fs_eq, bx_eq. cbv zeta.
  generalize (shear st). abstract_atoms st theta.
  do 6 (destruct i as [|i];
        [do 6 (destruct j as [|j];
               [first [discriminate Hij | unfold_la; ring]|]);
         discriminate Hij|]).
  discriminate Hij.
Qed.

Lemma flexibility_offBlock st i j :
  offBlock i j = true -> mget (flexibility st) i j = 0.
Proof.
  intros Hij. rewrite flexibility_entries.
  rewrite Rsum_map_zero; [ring|].
  intros wx. rewrite fb_offBlock by exact Hij. ring.
Qed.

Lemma blockDiag_inverse a b c d e f g h i a' b' c' d' e' f' g' h' i' :
  det3 a b c d e f g h i <> 0 ->
  det3 a' b' c' d' e' f' g' h' i' <> 0 ->
  is_inverse
    (blockDiag [[a; b; c]; [d; e; f]; [g; h; i]]
               [[a'; b'; c']; [d'; e'; f']; [g'; h'; i']])
    (blockDiag (inv3 a b c d e f g h i) (inv3 a' b' c' d' e' f' g' h' i')).
Proof.
  intros Hd Hd'. unfold is_inverse, inv3. cbv zeta.
  set (dt := det3 a b c d e f g h i) in *.
  set (dt' := det3 a' b' c' d' e' f' g' h' i') in *.
  assert (Edt : dt = det3 a b c d e f g h i) by reflexivity.
  assert (Edt' : dt' = det3 a' b' c' d' e' f' g' h' i') by reflexivity.
  clearbody dt dt'. unfold det3 in Edt, Edt'.
  cbv [blockDiag map app length].
  split; [split; [reflexivity | repeat constructor]|].
  split; unfold_la; list_eq; subst dt dt'; field; assumption.
Qed.

Lemma flexibility_blockDiag st :
  let m := mget (flexibility st) in
  flexibility st =
  blockDiag [ [m 0 0; m 0 1; m 0 2]; [m 1 0; m 1 1; m 1 2];
              [m 2 0; m 2 1; m 2 2] ]%nat
            [ [m 3 3; m 3 4; m 3 5]; [m 4 3; m 4 4; m 4 5];
              [m 5 3; m 5 4; m 5 5] ]%nat.
Proof.
  cbv zeta. apply mat66_ext.
  - apply shape_flexibility.
  - split; [reflexivity | repeat constructor].
  - intros i j Hi Hj.
    generalize (flexibility_offBlock st).
    generalize (mget (flexibility st)). intros m Hoff.
    do 6 (destruct i as [|i];
          [do 6 (destruct j as [|j];
                 [cbv [blockDiag map app mget nth];
                  lazymatch goal with
                  | |- _ = 0 => apply Hoff; reflexivity
                  | |- _ => reflexivity
                  end|]);
           lia|]).
    lia.
Qed.

Ltac zero_offBlock m Hoff :=
  repeat match goal with
         | |- context [m ?i ?j] => rewrite (Hoff i j eq_refl)
         end.

Lemma flexibility_invertible st :
  admissible st -> exists k, is_inverse (flexibility st) k.
Proof.
  intros Hadm.
  assert (Hoff := flexibility_offBlock st).
  assert (Hker := flexibility_kernel st).
  rewrite flexibility_blockDiag. cbv zeta.
  revert Hoff Hker. generalize (mget (flexibility st)). intros m Hoff Hker.
  eexists. apply blockDiag_inverse.
  - apply det3_nonzero. intros x y z H1 H2 H3.
    destruct (Hker (pad3 x y z) Hadm) as (X0 & X1 & X2 & _).
    + intros i Hi. unfold rowApply. cbn [pad3].
      do 6 (destruct i as [|i]; [zero_offBlock m Hoff; lra|]).
      lia.
    + cbn [pad3] in *. auto.
  - apply det3_nonzero. intros x y z H1 H2 H3.
    destruct (Hker (pad3' x y z) Hadm) as (_ & _ & _ & X3 & X4 & X5).
    + intros i Hi. unfold rowApply. cbn [pad3'].
      do 6 (destruct i as [|i]; [zero_offBlock m Hoff; lra|]).
      lia.
    + cbn [pad3'] in *. auto.
Qed.

(** ** The element facade *)

Section Facade.
Context `{PipeBase}.

Lemma getTangentStiff_failure st :
  fst (kb st) = None ->
  getTangentStiff st =
  (Zero_m (K (snd (kb st))), set_K (snd (kb st)) (Zero_m (K (snd (kb st))))).
Proof.
  unfold getTangentStiff. cbv zeta.
  destruct (kb st) as [[[kbm pb0]|] st']; cbn [fst snd];
    [discriminate | reflexivity].
Qed.

Lemma getInitialStiff_failure st :
  fst (kb st) = None ->
  getInitialStiff st =
  (Zero_m (K (snd (kb st))), set_K (snd (kb st)) (Zero_m (K (snd (kb st))))).
Proof.
  unfold getInitialStiff.
  destruct (kb st) as [[[kbm pb0]|] st']; cbn [fst snd];
    [discriminate | reflexivity].
Qed.

Lemma getResistingForce_failure st :
  fst (kb st) = None ->
  getResistingForce st =
  (Zero_v (P (snd (kb st))), set_P (snd (kb st)) (Zero_v (P (snd (kb st))))).
Proof.
  unfold getResistingForce. cbv zeta.
  destruct (kb st) as [[[kbm pb0]|] st']; cbn [fst snd];
    [discriminate | reflexivity].
Qed.

(** C4.  Whenever [kb] fails, [getTangentStiff] and [getInitialStiff]
    return the stiffness matrix K zeroed, every entry 0, and
    [getResistingForce] returns the force vector P zeroed, every entry 0;
    each query returns, and leaves the element as [kb] left it but for
    the zeroed K or P. *)
Theorem queries_zero_on_failure (st : CurvedPipe) :
  fst (kb st) = None ->
  let st' := snd (kb st) in
  (getTangentStiff st = (Zero_m (K st'), set_K st' (Zero_m (K st'))) /\
   forall i j, mget (fst (getTangentStiff st)) i j = 0) /\
  (getInitialStiff st = (Zero_m (K st'), set_K st' (Zero_m (K st'))) /\
   forall i j, mget (fst (getInitialStiff st)) i j = 0) /\
  (getResistingForce st = (Zero_v (P st'), set_P st' (Zero_v (P st'))) /\
   forall i, vget (fst (getResistingForce st)) i = 0).
Proof.
  intros Hk. cbv zeta.
  rewrite getTangentStiff_failure, getInitialStiff_failure,
    getResistingForce_failure by exact Hk.
  cbn [fst].
  repeat split; intros; first [apply Zero_m_entries | apply Zero_v_entries].
Qed.

Lemma getResistingForce_success st kbm pb0 :
  fst (kb st) = Some (kbm, pb0) ->
  let st' := snd (kb st) in
  length (q st') = 6%nat ->
  let v := getBasicTrialDisp (theCoordTransf st) in
  let qb := vadd (mvmul kbm v) pb0 in
  let Pg := getGlobalResistingForce (theCoordTransf st') qb (plw st') in
  fst (getResistingForce st) =
  if Req_dec_T (rho st') 0 then Pg else vsub Pg (Q st').
Proof.
  intros Hk. destruct (kb_pb0 st kbm pb0 Hk) as (_ & Hsh & _).
  revert Hk. unfold getResistingForce. cbv zeta.
  generalize (getBasicTrialDisp (theCoordTransf st)). intros v.
  destruct (kb st) as [[[kbm' pb0']|] st']; cbn [fst snd];
    [|discriminate].
  intros Hk Hq. injection Hk as -> ->.
  cbn [q set_q theCoordTransf rho P set_P Q].
  unfold addMatrixVector.
  rewrite addVector_overwrite
    by (rewrite length_mvmul, Hq; symmetry; apply Hsh).
  generalize (vadd (mvmul kbm v) pb0). intros qb.
  change (plw (set_q (set_q st' (mvmul kbm v)) qb)) with (plw st').
  destruct (Req_dec_T (rho st') 0); cbn [P set_P set_q Q];
    [reflexivity | apply addVector_minus].
Qed.

(** C9, amended.  For every call to [getResistingForce] in which [kb]
    succeeds, the force assembled by the transformation from the basic
    force q = kb * ub + pb0 and the end-action vector plw is returned
    minus the nodal load vector Q when the mass density rho is not zero,
    and as assembled when rho is zero. *)
Theorem getResistingForce_assembled (st : CurvedPipe) (kbm : list (list R))
  (pb0 : list R) :
  fst (kb st) = Some (kbm, pb0) ->
  let st' := snd (kb st) in
  length (q st') = 6%nat ->
  let v := getBasicTrialDisp (theCoordTransf st) in
  let qb := vadd (mvmul kbm v) pb0 in
  let Pg := getGlobalResistingForce (theCoordTransf st') qb (plw st') in
  (rho st' <> 0 -> fst (getResistingForce st) = vsub Pg (Q st')) /\
  (rho st' = 0 -> fst (getResistingForce st) = Pg).
Proof.
  intros Hk st' Hq v qb Pg.
  pose proof (getResistingForce_success st kbm pb0 Hk Hq) as Heq.
  cbv zeta in Heq. fold st' v qb Pg in Heq. rewrite Heq.
  destruct (Req_dec_T (rho st') 0); split; intros;
    first [reflexivity | contradiction].
Qed.

(** [kb] succeeds on an admissible element whose refreshes succeed. *)
Lemma kb_refresh_ok st :
  (0 <= fst (updateSectionData st))%Z ->
  (0 <= fst (updateMaterialData (snd (updateSectionData st))))%Z ->
  admissible st ->
  exists kbm pb0,
    kb st = (Some (kbm, pb0),
             snd (updateMaterialData (snd (updateSectionData st)))).
Proof.
  intros H1 H2 Hadm.
  destruct (flexibility_invertible st Hadm) as [k Hk].
  destruct (Invert_exists _ _ Hk) as [k' Hk'].
  rewrite kb_eq. cbv zeta.
  destruct (Z.ltb_spec (fst (updateSectionData st)) 0); [lia|].
  destruct (Z.ltb_spec
              (fst (updateMaterialData (snd (updateSectionData st)))) 0);
    [lia|].
  rewrite Hk'. eauto.
Qed.

End Facade.

(** ** Pressure and the axial correction *)

Section Pressure.
Context `{PipeBase}.

Lemma axialCorrection_eq st u :
  aveTemp st = 0 -> pressure st <> 0 -> length u = 6%nat ->
  axialCorrection st u = thinWallTerm st + curvatureTerm st.
Proof.
  intros HT Hp Hu. unfold axialCorrection.
  rewrite kb_ub0_lockedDeformation by exact Hu.
  unfold lockedDeformation, thermalTerm, pressureAxial. rewrite HT.
  destruct (Rgt_dec 0 0) as [Hgt | _]; [lra|].
  destruct (Req_dec_T (pressure st) 0) as [Hz | _]; [contradiction|].
  cbv [vget nth]. ring.
Qed.

(** C8, amended.  With zero temperature differential, and geometry and
    section and material properties held fixed, the correction that [kb]
    adds to the axial component for a nonzero pressure is the sum of a
    thin-wall term and a curvature term; doubling the pressure doubles
    the thin-wall term exactly, and doubles the whole correction exactly
    when R * R * (theta0 * cos theta0 - sin theta0) *
    (BTA at 2P - 2 * BTA at P) is zero. *)
Theorem axialCorrection_doubling (st1 st2 : CurvedPipe) (u : list R) :
  radius st2 = radius st1 -> theta0 st2 = theta0 st1 ->
  E st2 = E st1 -> nu st2 = nu st1 -> theSect st2 = theSect st1 ->
  aveTemp st1 = 0 -> aveTemp st2 = 0 ->
  pressure st1 <> 0 -> pressure st2 = 2 * pressure st1 ->
  length u = 6%nat ->
  axialCorrection st1 u = thinWallTerm st1 + curvatureTerm st1 /\
  axialCorrection st2 u = thinWallTerm st2 + curvatureTerm st2 /\
  thinWallTerm st2 = 2 * thinWallTerm st1 /\
  (axialCorrection st2 u = 2 * axialCorrection st1 u <->
   radius st1 * radius st1 *
   (theta0 st1 * cos (theta0 st1) - sin (theta0 st1)) *
   (pressureBTA st2 - 2 * pressureBTA st1) = 0).
Proof.
  intros HR Hth HE Hnu Hsect HT1 HT2 Hp1 Hp2 Hu.
  assert (Hp2' : pressure st2 <> 0) by (rewrite Hp2; lra).
  rewrite (axialCorrection_eq st1 u HT1 Hp1 Hu).
  rewrite (axialCorrection_eq st2 u HT2 Hp2' Hu).
  assert (Hthin : thinWallTerm st2 = 2 * thinWallTerm st1).
  { unfold thinWallTerm. rewrite HR, Hth, HE, Hnu, Hsect, Hp2.
    unfold Rdiv. ring. }
  split; [reflexivity|]. split; [reflexivity|]. split; [exact Hthin|].
  rewrite Hthin. unfold curvatureTerm. rewrite HR, Hth.
  split; intros Heq; lra.
Qed.

End Pressure.

(** ** An element without its geometry *)

(** As constructed the element has radius 0, and its integrated
    flexibility matrix is the zero matrix, which has no inverse. *)
Section Degenerate.
Context `{PipeBase}.

Lemma flexibility_zero_radius st :
  radius st = 0 -> flexibility st = mZero 6 6.
Proof.
  intros HR. apply mat66_ext;
    [apply shape_flexibility | apply shape_mZero |].
  intros i j _ _. rewrite flexibility_entries, mget_mZero, HR. ring.
Qed.

Lemma mZero_singular : singular (mZero 6 6).
Proof.
  intros [k (_ & Hk & _)].
  assert (H1 : mget (mmul (mZero 6 6) k) 0 0 = 1) by (rewrite Hk; reflexivity).
  unfold mmul, mZero, mget in H1. cbn [repeat map nth] in H1.
  destruct (mcols k) as [|n]; cbn [seq map nth] in H1; [lra|].
  change [0; 0; 0; 0; 0; 0] with (repeat 0 6) in H1.
  rewrite dot_zero_l in H1. lra.
Qed.

Lemma kb_zero_radius st : radius st = 0 -> fst (kb st) = None.
Proof.
  intros HR. apply kb_singular.
  rewrite flexibility_zero_radius by exact HR. apply mZero_singular.
Qed.

End Degenerate.

(** ** The pipe bend *)

Lemma bend_Norm1 : Norm (vsub [0; 0; 0] [4 / 5; - (3 / 5); 0]) = 1.
Proof.
  unfold Norm, dot, vsub, Rsum. cbn [zipWith fold_right].
  replace (_ + _) with 1 by field. apply sqrt_1.
Qed.

Lemma bend_Norm2 : Norm (vsub [0; 0; 0] [4 / 5; 3 / 5; 0]) = 1.
Proof.
  unfold Norm, dot, vsub, Rsum. cbn [zipWith fold_right].
  replace (_ + _) with 1 by field. apply sqrt_1.
Qed.

Lemma bend_geometry p : ~ geometryFails (bendInit p).
Proof.
  unfold geometryFails. cbv zeta.
  cbn [bendInit bendWith theNodes center fst snd getCrds theSect WALL
       bendSect tolWall theCoordTransf getInitialLength bendTransf].
  rewrite bend_Norm1, bend_Norm2.
  replace (1 - 1) with 0 by ring. rewrite Rabs_R0. lra.
Qed.

Lemma bend_getTheta0 p : getTheta0 (bendInit p) = (0%Z, bend p).
Proof.
  destruct (getTheta0_cases (bendInit p)) as [(Hf & _) | (_ & Heq)];
    [destruct (bend_geometry p Hf)|].
  rewrite Heq. f_equal.
  cbn [bendInit bendWith theNodes center fst snd getCrds theCoordTransf
       getInitialLength bendTransf].
  rewrite bend_Norm1, bend_Norm2.
  replace ((1 + 1) / 2) with 1 by lra.
  replace (6 / 5 / 2 / 1) with (3 / 5) by lra.
  reflexivity.
Qed.

Lemma bend_theta0 : 3 / 5 < asin (3 / 5) < 3 / 4.
Proof.
  assert (Hb : - (PI / 2) < asin (3 / 5) < PI / 2)
    by (apply asin_bound_lt; lra).
  assert (Hs : sin (asin (3 / 5)) = 3 / 5) by (apply sin_asin; lra).
  assert (Hpos : 0 < asin (3 / 5)).
  { destruct (Rle_lt_dec (asin (3 / 5)) 0) as [Hle | Hgt]; [|exact Hgt].
    exfalso. destruct Hle as [Hlt | Heq].
    - assert (sin (asin (3 / 5)) < 0)
        by (apply sin_lt_0_var; [pose proof PI_RGT_0; lra | exact Hlt]).
      lra.
    - rewrite Heq, sin_0 in Hs. lra. }
  split.
  - pose proof (sin_lt_x _ Hpos). lra.
  - destruct (Rlt_le_dec (asin (3 / 5)) (3 / 4)) as [Hlt | Hge]; [exact Hlt|].
    exfalso.
    assert (Hinc : sin (3 / 4) <= sin (asin (3 / 5))).
    { apply sin_incr_1; pose proof PI2_1; lra. }
    assert (Hlb := pre_sin_bound (3 / 4) 0).
    destruct Hlb as [Hlb _]; [lra | lra |].
    unfold sin_approx, sum_f_R0, sin_term in Hlb.
    cbn [Nat.mul Nat.add pow fact INR] in Hlb.
    lra.
Qed.

Lemma bend_admissible p : admissible (bend p).
Proof.
  unfold admissible. cbn.
  pose proof bend_theta0. pose proof PI2_1.
  repeat split; lra.
Qed.

Lemma bend_kb p :
  exists kbm pb0, @kb bendBase (bend p) = (Some (kbm, pb0), bend p).
Proof.
  apply (@kb_refresh_ok bendBase (bend p)); cbn [updateSectionData
    updateMaterialData bendBase fst snd]; [lia | lia | apply bend_admissible].
Qed.

Lemma bend_cos : cos (asin (3 / 5)) = 4 / 5.
Proof.
  assert (Hb : - (PI / 2) < asin (3 / 5) < PI / 2)
    by (apply asin_bound_lt; lra).
  assert (Hc : 0 < cos (asin (3 / 5))) by (apply cos_gt_0; lra).
  assert (Hs : sin (asin (3 / 5)) = 3 / 5) by (apply sin_asin; lra).
  assert (H1 := sin2_cos2 (asin (3 / 5))). rewrite Hs in H1.
  unfold Rsqr in H1. nra.
Qed.

Lemma bend_BTA2 : @pressureBTA (bend 2) = - (46 / 7263).
Proof.
  unfold pressureBTA. cbn [bend bendWith theSect DOUT WALL bendSect radius
                           pressure E nu].
  replace 0.5 with (1 / 2) by lra. field.
Qed.

Lemma bend_BTA4 : @pressureBTA (bend 4) = - (46 / 3663).
Proof.
  unfold pressureBTA. cbn [bend bendWith theSect DOUT WALL bendSect radius
                           pressure E nu].
  replace 0.5 with (1 / 2) by lra. field.
Qed.

Example bend_fs_axial : mget (fs (bend 0) 0) 0 0 = 1 / 10.
Proof.
  rewrite fs_eq. cbn [mget nth bend bendWith E A]. field.
Qed.

Example bend_fs_shear : mget (fs (bend 0) 0) 4 4 = 1 / 2.
Proof.
  rewrite fs_eq. cbn [mget nth]. unfold shear.
  cbn [bend bendWith theSect ALFAV bendSect G A].
  destruct (Rgt_dec 2 99) as [Hs | _]; [lra|].
  destruct (Rgt_dec 2 0) as [_ | Hp]; [field | lra].
Qed.

Example gaussRule_weights :
  2 - 1 / 1000000000000000 < Rsum (map fst gaussRule) < 2.
Proof. unfold gaussRule, Rsum. cbn [map fst fold_right]. lra. Qed.

Example gaussRule_symmetric :
  Rsum (map snd gaussRule) = 0.
Proof. unfold gaussRule, Rsum. cbn [map snd fold_right]. lra. Qed.

Lemma bend_kb_fst p :
  exists kbm pb0,
    fst (@kb bendBase (bend p)) = Some (kbm, pb0) /\
    snd (@kb bendBase (bend p)) = bend p.
Proof.
  destruct (bend_kb p) as (kbm & pb0 & Hk).
  exists kbm, pb0. rewrite Hk. split; reflexivity.
Qed.

Lemma bend_axialCorrection p u :
  p <> 0 -> length u = 6%nat ->
  @axialCorrection bendBase (bend p) u =
  3 / 2000 * p + 2 * @pressureBTA (bend p) * (asin (3 / 5) * (4 / 5) - 3 / 5).
Proof.
  intros Hp Hu.
  rewrite (@axialCorrection_eq bendBase (bend p) u eq_refl Hp Hu).
  unfold thinWallTerm, curvatureTerm.
  cbn [bend bendWith theSect DOUT WALL bendSect radius theta0 pressure E nu].
  rewrite bend_cos, sin_asin by lra.
  replace 0.5 with (1 / 2) by lra. field.
Qed.

(** The claim C8 fails on the bend: with no distributed load and no
    temperature differential, the axial correction at pressure 4 is not
    twice the one at pressure 2. *)
Lemma axialCorrection_not_doubled :
  wx (bend 2) = 0 /\ wy (bend 2) = 0 /\ wz (bend 2) = 0 /\
  @aveTemp bendBase (bend 2) = 0 /\ @aveTemp bendBase (bend 4) = 0 /\
  pressure (bend 2) <> 0 /\ pressure (bend 4) = 2 * pressure (bend 2) /\
  @axialCorrection bendBase (bend 4) (ubnoGauss (bend 4)) <>
  2 * @axialCorrection bendBase (bend 2) (ubnoGauss (bend 2)).
Proof.
  cbn [bend bendWith wx wy wz aveTemp bendBase pressure].
  repeat (split; [lra|]).
  rewrite !bend_axialCorrection by (try lra; apply length_ubnoGauss).
  rewrite bend_BTA2, bend_BTA4.
  pose proof bend_theta0 as [_ Hlt]. lra.
Qed.

(** The claim C9 fails on the bend: [kb] succeeds, the mass density is
    zero, and the force returned is the assembled one, not the assembled
    one minus Q. *)
Lemma getResistingForce_keeps_Q :
  exists kbm pb0,
    fst (@kb bendBase (bend 0)) = Some (kbm, pb0) /\
    let st' := snd (@kb bendBase (bend 0)) in
    let v := getBasicTrialDisp (theCoordTransf (bend 0)) in
    let qb := vadd (mvmul kbm v) pb0 in
    let Pg := getGlobalResistingForce (theCoordTransf st') qb (plw st') in
    fst (@getResistingForce bendBase (bend 0)) <> vsub Pg (Q st').
Proof.
  destruct (bend_kb_fst 0) as (kbm & pb0 & Hk & Hst).
  exists kbm, pb0. split; [exact Hk|]. cbv zeta.
  rewrite (@getResistingForce_success bendBase (bend 0) kbm pb0 Hk)
    by (rewrite Hst; reflexivity).
  rewrite Hst.
  cbn [bend bendWith rho Q theCoordTransf getGlobalResistingForce
       getBasicTrialDisp bendTransf].
  destruct (Req_dec_T 0 0) as [_ | Hne]; [|contradiction].
  generalize (vadd (mvmul kbm [0; 0; 0; 0; 0; 0]) pb0)
    (plw (bendWith 0 1 (asin (3 / 5)))).
  intros qb p0 Heq. cbn [vsub zipWith] in Heq.
  injection Heq as H0 _. lra.
Qed.

(** The theorems at work on the bend. *)

Lemma kb_locked_deformation_witness :
  exists mat vec,
    fst (@kb bendBase (bend 2)) = Some (mat, vec) /\
    is_inverse (flexibility (bend 2)) mat /\
    vec = map Ropp
            (mvmul mat (@kb_ub0 bendBase (snd (@kb bendBase (bend 2)))
                          (ubnoGauss (bend 2)))).
Proof.
  destruct (bend_kb_fst 2) as (mat & vec & Hk & _).
  exists mat, vec. split; [exact Hk|].
  destruct (proj2 (@kb_locked_deformation bendBase (bend 2)) mat vec Hk)
    as (_ & _ & _ & _ & _ & _ & _ & Hinv & Hvec).
  split; [exact Hinv | exact Hvec].
Defined.

Lemma queries_zero_on_failure_witness :
  fst (@kb bendBase (bendInit 0)) = None /\
  (forall i j, mget (fst (@getTangentStiff bendBase (bendInit 0))) i j = 0) /\
  (forall i j, mget (fst (@getInitialStiff bendBase (bendInit 0))) i j = 0) /\
  (forall i, vget (fst (@getResistingForce bendBase (bendInit 0))) i = 0).
Proof.
  assert (Hk : fst (@kb bendBase (bendInit 0)) = None)
    by (apply kb_zero_radius; reflexivity).
  split; [exact Hk|].
  destruct (@queries_zero_on_failure bendBase (bendInit 0) Hk)
    as ((_ & H1) & (_ & H2) & (_ & H3)).
  split; [exact H1 | split; [exact H2 | exact H3]].
Defined.

Lemma fs_diagonal_witness :
  0 < ALFAV (theSect (bend 0)) <= 99 /\
  mget (fs (bend 0) 0) 4 4 =
  ALFAV (theSect (bend 0)) / (G (bend 0) * A (bend 0)).
Proof.
  assert (Ha : 0 < ALFAV (theSect (bend 0)) <= 99)
    by (cbn [bend bendWith theSect ALFAV bendSect]; lra).
  split; [exact Ha|].
  destruct (fs_diagonal (bend 0) 0) as (_ & _ & _ & _ & _ & Hs & _).
  exact (proj1 (Hs Ha)).
Defined.

Lemma kb_zero_load_witness :
  exists mat vec,
    fst (@kb bendBase (bend 0)) = Some (mat, vec) /\
    @kb_ub0 bendBase (snd (@kb bendBase (bend 0))) (ubnoGauss (bend 0))
      = [0; 0; 0; 0; 0; 0] /\
    vec = [0; 0; 0; 0; 0; 0].
Proof.
  destruct (bend_kb_fst 0) as (mat & vec & Hk & Hst).
  exists mat, vec. split; [exact Hk|].
  apply (@kb_zero_load bendBase (bend 0) mat vec);
    try reflexivity; try exact Hk; rewrite Hst; reflexivity.
Defined.

Lemma axialCorrection_doubling_witness :
  pressure (bend 2) <> 0 /\ pressure (bend 4) = 2 * pressure (bend 2) /\
  thinWallTerm (bend 4) = 2 * thinWallTerm (bend 2).
Proof.
  assert (Hp : pressure (bend 2) <> 0) by (cbn [bend bendWith pressure]; lra).
  assert (Hp2 : pressure (bend 4) = 2 * pressure (bend 2))
    by (cbn [bend bendWith pressure]; lra).
  split; [exact Hp|]. split; [exact Hp2|].
  destruct (@axialCorrection_doubling bendBase (bend 2) (bend 4)
              [0; 0; 0; 0; 0; 0] eq_refl eq_refl eq_refl eq_refl eq_refl
              eq_refl eq_refl Hp Hp2 eq_refl) as (_ & _ & Hthin & _).
  exact Hthin.
Defined.

Lemma getResistingForce_assembled_witness :
  exists kbm pb0,
    fst (@kb bendBase (bend 0)) = Some (kbm, pb0) /\
    rho (snd (@kb bendBase (bend 0))) = 0 /\
    fst (@getResistingForce bendBase (bend 0)) =
    getGlobalResistingForce (theCoordTransf (snd (@kb bendBase (bend 0))))
      (vadd (mvmul kbm (getBasicTrialDisp (theCoordTransf (bend 0)))) pb0)
      (plw (snd (@kb bendBase (bend 0)))).
Proof.
  destruct (bend_kb_fst 0) as (kbm & pb0 & Hk & Hst).
  exists kbm, pb0. split; [exact Hk|].
  assert (Hrho : rho (snd (@kb bendBase (bend 0))) = 0)
    by (rewrite Hst; reflexivity).
  split; [exact Hrho|].
  assert (Hq : length (q (snd (@kb bendBase (bend 0)))) = 6%nat)
    by (rewrite Hst; reflexivity).
  exact (proj2 (@getResistingForce_assembled bendBase (bend 0) kbm pb0 Hk Hq)
           Hrho).
Defined.

Lemma getTheta0_asin_domain_witness :
  0 <= getInitialLength (theCoordTransf (bendInit 0)) /\
  fst (getTheta0 (bendInit 0)) = 0%Z /\
  0 <= theta0 (snd (getTheta0 (bendInit 0))) < PI / 2.
Proof.
  assert (HL : 0 <= getInitialLength (theCoordTransf (bendInit 0)))
    by (cbn [bendInit bendWith theCoordTransf getInitialLength bendTransf];
        lra).
  assert (Hok : fst (getTheta0 (bendInit 0)) = 0%Z)
    by (rewrite bend_getTheta0; reflexivity).
  split; [exact HL|]. split; [exact Hok|].
  destruct (getTheta0_asin_domain (bendInit 0) HL Hok)
    as (_ & _ & _ & _ & _ & Hth).
  exact Hth.
Defined.

(** ** Further properties of the kernels and of the integrator *)

Lemma Rsum_nonneg {X : Type} (f : X -> R) (l : list X) :
  (forall k, In k l -> 0 <= f k) -> 0 <= Rsum (map f l).
Proof.
  induction l as [|a l IH]; intros Hpos; unfold Rsum in *; cbn [map fold_right].
  - lra.
  - assert (0 <= f a) by (apply Hpos; left; reflexivity).
    assert (0 <= fold_right Rplus 0 (map f l))
      by (apply IH; intros k Hk; apply Hpos; right; exact Hk).
    lra.
Qed.

Lemma flexibility_quadForm st x :
  quadForm (mget (flexibility st)) x =
  Rsum (map (fun wx => fst wx * theta0 st *
                       quadForm (mget (fb st (theta0 st * snd wx))) x)
            gaussRule) * radius st.
Proof.
  rewrite (quadForm_ext _ _ x (flexibility_entries st)).
  apply (quadForm_Rsum (fun wx => fst wx * theta0 st)
           (fun wx => mget (fb st (theta0 st * snd wx)))).
Qed.

Lemma flexibility_quadForm_terms st x wx :
  admissible st -> In wx gaussRule ->
  0 <= fst wx * theta0 st * quadForm (mget (fb st (theta0 st * snd wx))) x.
Proof.
  intros Hadm Hin. apply Rmult_le_pos.
  - apply Rlt_le, Rmult_lt_0_compat;
      [apply gaussRule_weights_pos, Hin | apply Hadm].
  - apply quadForm_fb_nonneg, Hadm.
Qed.

(** The integrated flexibility matrix of an admissible element is
    positive definite: its quadratic form is positive at every basic
    force vector that is not zero. *)
Theorem flexibility_positive_definite (st : CurvedPipe) (x : nat -> R) :
  admissible st ->
  (exists i, (i < 6)%nat /\ x i <> 0) ->
  0 < quadForm (mget (flexibility st)) x.
Proof.
  intros Hadm [i [Hi Hxi]].
  assert (Hge : 0 <= quadForm (mget (flexibility st)) x).
  { rewrite flexibility_quadForm. apply Rmult_le_pos.
    - apply Rsum_nonneg. intros wx Hin.
      apply flexibility_quadForm_terms; assumption.
    - left. apply Hadm. }
  destruct Hge as [Hgt | Heq]; [exact Hgt|]. exfalso.
  symmetry in Heq. rewrite flexibility_quadForm in Heq.
  destruct (Rmult_integral _ _ Heq) as [Hq | Hr];
    [|destruct Hadm as [HR _]; lra].
  assert (Hz := Rsum_nonneg_zero _ _
                  (fun wx Hin => flexibility_quadForm_terms st x wx Hadm Hin) Hq).
  assert (Hth : 0 < theta0 st < PI / 2) by apply Hadm.
  set (t := 0.0765265211334973 * theta0 st).
  assert (Ht : 0 < t < PI / 2) by (unfold t; lra).
  assert (Hneg : quadForm (mget (fb st (- t))) x = 0).
  { specialize (Hz (0.1527533871307258, -0.0765265211334973)).
    cbn [fst snd] in Hz.
    replace (theta0 st * -0.0765265211334973) with (- t) in Hz
      by (unfold t; lra).
    assert (Hin : In (0.1527533871307258, -0.0765265211334973) gaussRule)
      by (left; reflexivity).
    specialize (Hz Hin).
    apply Rmult_integral in Hz. destruct Hz as [Hz | Hz]; [lra | exact Hz]. }
  assert (Hpos : quadForm (mget (fb st t)) x = 0).
  { specialize (Hz (0.1527533871307258, 0.0765265211334973)).
    cbn [fst snd] in Hz.
    replace (theta0 st * 0.0765265211334973) with t in Hz
      by (unfold t; lra).
    assert (Hin : In (0.1527533871307258, 0.0765265211334973) gaussRule)
      by (right; left; reflexivity).
    specialize (Hz Hin).
    apply Rmult_integral in Hz. destruct Hz as [Hz | Hz]; [lra | exact Hz]. }
  apply (quadForm_fb_zero st _ x Hadm) in Hneg, Hpos.
  assert (Hx : x 0%nat = 0 /\ x 1%nat = 0 /\ x 2%nat = 0 /\
               x 3%nat = 0 /\ x 4%nat = 0 /\ x 5%nat = 0)
    by (apply (bxRow_zero st t x Hadm Ht); tauto).
  destruct Hx as (X0 & X1 & X2 & X3 & X4 & X5).
  do 6 (destruct i as [|i]; [contradiction|]). lia.
Qed.

(** The in-plane force at a section has the magnitude of the force the
    basic system carries at the nodes, whatever the angular position, and
    the out-of-plane shear force is the same along the arc. *)
Theorem bx_force_resultant (st : CurvedPipe) (theta : R) (x : nat -> R) :
  let invL := 1 / getInitialLength (theCoordTransf st) in
  (bxRow st theta x 0)² + (bxRow st theta x 4)² =
    (x 0%nat)² + ((x 1%nat + x 2%nat) * invL)² /\
  bxRow st theta x 5 = (x 3%nat + x 4%nat) * invL.
Proof.
  cbv zeta. unfold bxRow, rowApply. rewrite bx_eq. cbv zeta.
  cbv [mget nth]. unfold Rsqr.
  assert (H1 := sin2_cos2 theta). unfold Rsqr in H1.
  generalize dependent (sin theta). generalize dependent (cos theta).
  intros c s H1.
  generalize (1 / getInitialLength (theCoordTransf st)). intros iL.
  split; [|ring].
  replace ((c * x 0%nat + - s * iL * x 1%nat + - s * iL * x 2%nat +
            0 * x 3%nat + 0 * x 4%nat + 0 * x 5%nat) *
           (c * x 0%nat + - s * iL * x 1%nat + - s * iL * x 2%nat +
            0 * x 3%nat + 0 * x 4%nat + 0 * x 5%nat) +
           (s * x 0%nat + c * iL * x 1%nat + c * iL * x 2%nat +
            0 * x 3%nat + 0 * x 4%nat + 0 * x 5%nat) *
           (s * x 0%nat + c * iL * x 1%nat + c * iL * x 2%nat +
            0 * x 3%nat + 0 * x 4%nat + 0 * x 5%nat))
    with ((s * s + c * c) *
          (x 0%nat * x 0%nat +
           (x 1%nat + x 2%nat) * iL * ((x 1%nat + x 2%nat) * iL)))
    by ring.
  rewrite H1. ring.
Qed.

(** The end actions of the distributed load balance the load on the
    whole arc, of length 2 * R * theta0, in each of the three directions,
    and vanish with the load. *)
Theorem plw_balance (st : CurvedPipe) :
  let arc := 2 * radius st * theta0 st in
  length (plw st) = 6%nat /\
  vget (plw st) 0 = - (wx st * arc) /\
  vget (plw st) 1 + vget (plw st) 2 = - (wy st * arc) /\
  vget (plw st) 3 + vget (plw st) 4 = - (wz st * arc) /\
  (wx st = 0 -> wy st = 0 -> wz st = 0 -> plw st = [0; 0; 0; 0; 0; 0]).
Proof.
  cbv zeta. unfold plw. cbv zeta. cbv [vset set_nth vZero repeat vget nth].
  split; [reflexivity|].
  split; [ring|]. split; [ring|]. split; [ring|].
  intros -> -> ->. list_eq; ring.
Qed.

(** ** The geometry solver and the kernels at the nodes *)

(** Running the geometry solver again on its own result changes nothing:
    same status, same element. *)
Theorem getTheta0_idempotent (st : CurvedPipe) :
  getTheta0 (snd (getTheta0 st)) = getTheta0 st.
Proof.
  destruct (getTheta0_cases st) as [(Hf & Heq & _) | (Hnf & Heq)];
    rewrite Heq; cbn [snd].
  - destruct (getTheta0_cases
                (set_radius st
                   ((Norm (vsub (center st) (getCrds (fst (theNodes st)))) +
                     Norm (vsub (center st) (getCrds (snd (theNodes st)))))
                    / 2)))
      as [(_ & Heq' & _) | (Hnf' & _)].
    + rewrite Heq'. reflexivity.
    + exfalso. apply Hnf'. exact Hf.
  - destruct (getTheta0_cases
                (set_theta0
                   (set_radius st
                      ((Norm (vsub (center st) (getCrds (fst (theNodes st)))) +
                        Norm (vsub (center st) (getCrds (snd (theNodes st)))))
                       / 2))
                   (asin
                      (getInitialLength (theCoordTransf st) / 2 /
                       ((Norm (vsub (center st) (getCrds (fst (theNodes st)))) +
                         Norm (vsub (center st) (getCrds (snd (theNodes st)))))
                        / 2)))))
      as [(Hf' & _) | (_ & Heq')].
    + exfalso. apply Hnf. exact Hf'.
    + rewrite Heq'. reflexivity.
Qed.

(** What a successful run of the geometry solver leaves in the element,
    for a chord of positive length. *)
Lemma getTheta0_solved st :
  0 < getInitialLength (theCoordTransf st) ->
  fst (getTheta0 st) = 0%Z ->
  let st' := snd (getTheta0 st) in
  getInitialLength (theCoordTransf st') = getInitialLength (theCoordTransf st) /\
  wx st' = wx st /\ wy st' = wy st /\ wz st' = wz st /\
  0 < radius st' /\
  sin (theta0 st') = getInitialLength (theCoordTransf st) / 2 / radius st'.
Proof.
  intros HL Hok.
  destruct (getTheta0_cases st) as [(_ & Heq & _) | (Hnf & Heq)];
    rewrite Heq in *; [discriminate Hok|].
  cbv zeta. cbn [snd theta0 radius set_theta0 set_radius theCoordTransf
                 wx wy wz].
  unfold geometryFails in Hnf. cbv zeta in Hnf.
  set (rad := (Norm (vsub (center st) (getCrds (fst (theNodes st)))) +
               Norm (vsub (center st) (getCrds (snd (theNodes st))))) / 2) in *.
  set (L := getInitialLength (theCoordTransf st)) in *.
  assert (Hrad : 0 < rad) by lra.
  do 4 (split; [reflexivity|]). split; [exact Hrad|].
  apply sin_asin.
  assert (Hx : 0 <= L / 2 / rad <= 0.99985).
  { split.
    - apply Rmult_le_pos; [lra | left; apply Rinv_0_lt_compat; exact Hrad].
    - apply Rmult_le_reg_r with rad; [exact Hrad|].
      unfold Rdiv at 1. rewrite Rmult_assoc, Rinv_l by lra. lra. }
  lra.
Qed.

(** On an element whose geometry is solved, for a chord of positive
    length, the in-plane bending moment that [bx] gives at the two nodes
    is the basic end moment there: minus the second basic force at node I
    (theta = - theta0) and the third at node J (theta = theta0), with no
    share of the axial force. *)
Theorem bx_end_moments (st : CurvedPipe) :
  0 < getInitialLength (theCoordTransf st) ->
  fst (getTheta0 st) = 0%Z ->
  let st' := snd (getTheta0 st) in
  nth 1 (bx st' (- theta0 st')) [] = [0; -1; 0; 0; 0; 0] /\
  nth 1 (bx st' (theta0 st')) [] = [0; 0; 1; 0; 0; 0].
Proof.
  intros HL Hok.
  destruct (getTheta0_solved st HL Hok) as (HL' & _ & _ & _ & HR & Hs).
  cbv zeta in *. set (st' := snd (getTheta0 st)) in *.
  rewrite !bx_eq. cbv zeta. cbn [nth].
  rewrite sin_neg, cos_neg, Hs, HL'.
  set (L := getInitialLength (theCoordTransf st)) in *.
  replace 0.5 with (1 / 2) by lra.
  split; list_eq; field; lra.
Qed.

(** On an element whose geometry is solved, for a chord of positive
    length, the particular solution [Spx] of the distributed load has no
    in-plane bending moment at either node, and neither out-of-plane
    bending moment nor torque at node J. *)
Theorem Spx_at_nodes (st : CurvedPipe) :
  0 < getInitialLength (theCoordTransf st) ->
  fst (getTheta0 st) = 0%Z ->
  let st' := snd (getTheta0 st) in
  vget (Spx st' (- theta0 st')) 1 = 0 /\
  vget (Spx st' (theta0 st')) 1 = 0 /\
  vget (Spx st' (theta0 st')) 2 = 0 /\
  vget (Spx st' (theta0 st')) 3 = 0.
Proof.
  intros HL Hok.
  destruct (getTheta0_solved st HL Hok) as (HL' & _ & _ & _ & HR & Hs).
  cbv zeta in *. set (st' := snd (getTheta0 st)) in *.
  unfold Spx. cbv zeta. cbv [vset set_nth vZero repeat vget nth].
  rewrite sin_neg, cos_neg, Hs, HL'.
  replace (theta0 st' - theta0 st') with 0 by ring.
  rewrite sin_0, cos_0.
  set (L := getInitialLength (theCoordTransf st)) in *.
  replace 0.5 with (1 / 2) by lra.
  repeat split; field; lra.
Qed.

(** ** Products, transposes and inverses of 6 by 6 matrices *)

Lemma mk66_eta m : shape 6 6 m -> m = mk66 (mget m).
Proof. apply mat66_eta. Qed.

Lemma mmul_assoc66 a b c :
  shape 6 6 a -> shape 6 6 b -> shape 6 6 c ->
  mmul (mmul a b) c = mmul a (mmul b c).
Proof.
  intros Ha Hb Hc.
  rewrite (mk66_eta a Ha), (mk66_eta b Hb), (mk66_eta c Hc).
  generalize (mget a) (mget b) (mget c). intros fa fb fc.
  unfold mk66. unfold_la. list_eq; ring.
Qed.

Lemma transpose_mmul66 a b :
  shape 6 6 a -> shape 6 6 b ->
  transpose (mmul a b) = mmul (transpose b) (transpose a).
Proof.
  intros Ha Hb.
  rewrite (mk66_eta a Ha), (mk66_eta b Hb).
  generalize (mget a) (mget b). intros fa fb.
  unfold mk66. unfold_la. list_eq; ring.
Qed.

Lemma mmul_identity_r a : shape 6 6 a -> mmul a (identity 6) = a.
Proof.
  intros Ha. rewrite (mk66_eta a Ha). generalize (mget a). intros fa.
  unfold mk66. unfold_la. list_eq; ring.
Qed.

Lemma mmul_identity_l a : shape 6 6 a -> mmul (identity 6) a = a.
Proof.
  intros Ha. rewrite (mk66_eta a Ha). generalize (mget a). intros fa.
  unfold mk66. unfold_la. list_eq; ring.
Qed.

Lemma transpose_identity : transpose (identity 6) = identity 6.
Proof. reflexivity. Qed.

Lemma shape_mmul66 a b : shape 6 6 a -> shape 6 6 b -> shape 6 6 (mmul a b).
Proof.
  intros Ha Hb. rewrite (mk66_eta a Ha), (mk66_eta b Hb).
  split; [reflexivity | repeat constructor].
Qed.

(** A symmetric 6 by 6 matrix has at most one inverse, and that inverse
    is symmetric. *)
Lemma inverse_symmetric a k :
  shape 6 6 a -> transpose a = a -> is_inverse a k -> transpose k = k.
Proof.
  intros Ha Hsym (Hk & Hak & Hka).
  rewrite (proj1 Ha) in Hk, Hak, Hka.
  assert (Hkt : shape 6 6 (transpose k)) by (apply shape_transpose66, Hk).
  assert (H1 : mmul (transpose k) a = identity 6).
  { rewrite <- Hsym at 1. rewrite <- transpose_mmul66 by assumption.
    rewrite Hak. apply transpose_identity. }
  rewrite <- (mmul_identity_r (transpose k) Hkt).
  rewrite <- Hak, <- mmul_assoc66 by assumption.
  rewrite H1. apply mmul_identity_l, Hk.
Qed.

Lemma flexibility_symmetric st : transpose (flexibility st) = flexibility st.
Proof.
  apply transpose_symmetric; [apply shape_flexibility|].
  intros i j Hi Hj. rewrite !flexibility_entries. f_equal.
  apply Rsum_map_ext. intros wx. f_equal.
  apply fb_symmetric_entries; assumption.
Qed.

Lemma inverse_unique a k k' :
  shape 6 6 a -> is_inverse a k -> is_inverse a k' -> k = k'.
Proof.
  intros Ha (Hk & Hak & Hka) (Hk' & Hak' & Hka').
  rewrite (proj1 Ha) in *.
  rewrite <- (mmul_identity_r k Hk), <- Hak'.
  rewrite <- mmul_assoc66 by assumption.
  rewrite Hka. apply mmul_identity_l, Hk'.
Qed.


Section MoreAssembler.
Context `{PipeBase}.

(** The basic stiffness that a successful [kb] returns is symmetric, and
    it is the only inverse of the integrated flexibility matrix. *)
Theorem kb_stiffness_symmetric (st : CurvedPipe) (kbm : list (list R))
  (pb0 : list R) :
  fst (kb st) = Some (kbm, pb0) ->
  transpose kbm = kbm /\
  forall k, is_inverse (flexibility st) k -> k = kbm.
Proof.
  intros Hk. destruct (kb_pb0 st kbm pb0 Hk) as (Hinv & _ & _).
  split.
  - apply (inverse_symmetric (flexibility st));
      [apply shape_flexibility | apply flexibility_symmetric | exact Hinv].
  - intros k Hk'.
    apply (inverse_unique (flexibility st));
      [apply shape_flexibility | exact Hk' | exact Hinv].
Qed.

(** On an admissible element [kb] fails only through a refresh: when both
    refreshes succeed it returns a basic stiffness, the inverse of the
    integrated flexibility matrix, and leaves the element as the
    refreshes left it. *)
Theorem kb_succeeds (st : CurvedPipe) :
  admissible st ->
  (0 <= fst (updateSectionData st))%Z ->
  (0 <= fst (updateMaterialData (snd (updateSectionData st))))%Z ->
  exists kbm pb0,
    kb st = (Some (kbm, pb0),
             snd (updateMaterialData (snd (updateSectionData st)))) /\
    is_inverse (flexibility st) kbm /\ length pb0 = 6%nat.
Proof.
  intros Hadm H1 H2.
  destruct (kb_refresh_ok st H1 H2 Hadm) as (kbm & pb0 & Hk).
  exists kbm, pb0. split; [exact Hk|].
  assert (Hk1 : fst (kb st) = Some (kbm, pb0)) by (rewrite Hk; reflexivity).
  destruct (kb_pb0 st kbm pb0 Hk1) as (Hinv & Hsh & Hpb).
  split; [exact Hinv|].
  rewrite Hpb, length_map, length_mvmul. apply Hsh.
Qed.


(** When [kb] succeeds, the tangent-stiffness and the resisting-force
    queries both leave the basic force q = kb * ub + pb0 in the element
    and hand it to the transformation; the initial-stiffness query hands
    over the basic stiffness alone and leaves q as it was. *)
Theorem queries_on_success (st : CurvedPipe) (kbm : list (list R))
  (pb0 : list R) :
  fst (kb st) = Some (kbm, pb0) ->
  let st' := snd (kb st) in
  length (q st') = 6%nat ->
  let v := getBasicTrialDisp (theCoordTransf st) in
  let qb := vadd (mvmul kbm v) pb0 in
  getTangentStiff st =
    (getGlobalStiffMatrix (theCoordTransf st') kbm qb, set_q st' qb) /\
  getInitialStiff st =
    (getInitialGlobalStiffMatrix (theCoordTransf st') kbm, st') /\
  q (snd (getTangentStiff st)) = qb /\
  q (snd (getResistingForce st)) = qb /\
  q (snd (getInitialStiff st)) = q st'.
Proof.
  intros Hk. destruct (kb_pb0 st kbm pb0 Hk) as (_ & Hsh & _).
  revert Hk. unfold getTangentStiff, getInitialStiff, getResistingForce.
  cbv zeta.
  generalize (getBasicTrialDisp (theCoordTransf st)). intros v.
  destruct (kb st) as [[[kbm' pb0']|] st']; cbn [fst snd]; [|discriminate].
  intros Hk Hq. injection Hk as -> ->.
  cbn [q set_q theCoordTransf rho P set_P Q].
  unfold addMatrixVector.
  rewrite addVector_overwrite
    by (rewrite length_mvmul, Hq; symmetry; apply Hsh).
  split; [reflexivity|]. split; [reflexivity|]. split; [reflexivity|].
  split; [|reflexivity].
  destruct (Req_dec_T (rho st') 0); reflexivity.
Qed.

End MoreAssembler.

(** ** Superposition of distributed loads *)

Lemma Rsum_map_linear {X : Type} (f g : X -> R) (k : R) (l : list X) :
  Rsum (map (fun x => f x + k * g x) l) = Rsum (map f l) + k * Rsum (map g l).
Proof.
  induction l as [|x l IH]; unfold Rsum in *; cbn [map fold_right];
    [ring | rewrite IH; ring].
Qed.

Lemma ubno_superposition st a b c a' b' c' k theta i :
  vget (ubno (set_w st (a + k * a') (b + k * b') (c + k * c')) theta) i =
  vget (ubno (set_w st a b c) theta) i +
  k * vget (ubno (set_w st a' b' c') theta) i.
Proof.
  rewrite !ubno_eq, !bx_eq, !fs_eq. unfold Spx. cbv zeta.
  change (shear (set_w st (a + k * a') (b + k * b') (c + k * c')))
    with (shear st).
  change (shear (set_w st a b c)) with (shear st).
  change (shear (set_w st a' b' c')) with (shear st).
  cbn [set_w wx wy wz radius theta0 theCoordTransf E A Iz Iy G Jx].
  generalize (shear st). abstract_atoms st theta.
  do 6 (destruct i as [|i]; [unfold_la; ring|]).
  unfold_la. destruct i; ring.
Qed.

(** The locked deformation that the integrator gives for a distributed
    load is linear in the load: for the load w + k * w' it is the one for
    w plus k times the one for w', component by component. *)
Theorem ubnoGauss_superposition (st : CurvedPipe) (a b c a' b' c' k : R) :
  ubnoGauss (set_w st (a + k * a') (b + k * b') (c + k * c')) =
  zipWith (fun u u' => u + k * u')
    (ubnoGauss (set_w st a b c)) (ubnoGauss (set_w st a' b' c')).
Proof.
  assert (Hent : forall w1 w2 w3 i,
             vget (ubnoGauss (set_w st w1 w2 w3)) i =
             Rsum (map (fun wx0 =>
                          fst wx0 * ((theta0 st - - theta0 st) / 2) *
                          vget (ubno (set_w st w1 w2 w3)
                                  ((theta0 st - - theta0 st) / 2 * snd wx0 +
                                   (theta0 st + - theta0 st) / 2)) i)
                       gaussRule) * radius st).
  { intros w1 w2 w3 i. unfold ubnoGauss.
    destruct (integrateGauss_entries (set_w st w1 w2 w3)
                (- theta0 (set_w st w1 w2 w3)) (theta0 (set_w st w1 w2 w3)))
      as (_ & _ & _ & Hv).
    rewrite Hv. reflexivity. }
  rewrite (vec6_eta _ (length_ubnoGauss _)).
  rewrite (vec6_eta (ubnoGauss (set_w st a b c)) (length_ubnoGauss _)).
  rewrite (vec6_eta (ubnoGauss (set_w st a' b' c')) (length_ubnoGauss _)).
  cbn [zipWith]. rewrite !Hent.
  list_eq;
    (rewrite <- Rmult_assoc, <- Rmult_plus_distr_r; f_equal;
     rewrite <- Rsum_map_linear; apply Rsum_map_ext; intros wx0;
     rewrite ubno_superposition; ring).
Qed.

(** ** From the solved geometry to the stiffness *)

Lemma getTheta0_admissible st :
  0 < getInitialLength (theCoordTransf st) ->
  fst (getTheta0 st) = 0%Z ->
  0 < E st * A st -> 0 < E st * Iz st -> 0 < E st * Iy st ->
  0 < G st * Jx st -> 0 <= G st * A st ->
  admissible (snd (getTheta0 st)).
Proof.
  intros HL Hok HEA HEIz HEIy HGJ HGA.
  destruct (getTheta0_cases st) as [(_ & Heq & _) | (Hnf & Heq)];
    rewrite Heq in *; [discriminate Hok|].
  unfold admissible.
  cbn [snd theta0 radius set_theta0 set_radius theCoordTransf E A G Jx Iy Iz].
  unfold geometryFails in Hnf. cbv zeta in Hnf.
  set (rad := (Norm (vsub (center st) (getCrds (fst (theNodes st)))) +
               Norm (vsub (center st) (getCrds (snd (theNodes st))))) / 2) in *.
  set (L := getInitialLength (theCoordTransf st)) in *.
  assert (Hrad : 0 < rad) by lra.
  assert (Hx : 0 < L / 2 / rad <= 0.99985).
  { split.
    - apply Rmult_lt_0_compat; [lra | apply Rinv_0_lt_compat; exact Hrad].
    - apply Rmult_le_reg_r with rad; [exact Hrad|].
      unfold Rdiv at 1. rewrite Rmult_assoc, Rinv_l by lra. lra. }
  assert (Hs : sin (asin (L / 2 / rad)) = L / 2 / rad)
    by (apply sin_asin; lra).
  assert (Hge : 0 <= asin (L / 2 / rad)) by (apply asin_nonneg; lra).
  assert (Hlt : - (PI / 2) < asin (L / 2 / rad) < PI / 2)
    by (apply asin_bound_lt; lra).
  assert (Hne : asin (L / 2 / rad) <> 0).
  { intros H0. rewrite H0, sin_0 in Hs. lra. }
  repeat split; try assumption; lra.
Qed.

Section SolvedGeometry.
Context `{PipeBase}.

(** Once the geometry solver has succeeded on an element with a chord of
    positive length and positive stiffnesses, the element is admissible
    (the bound 0.99985 keeps the half angle below a right angle), so
    [kb] on it fails only through a refresh: when both refreshes succeed
    it returns the inverse of the integrated flexibility matrix. *)
Theorem getTheta0_then_kb (st : CurvedPipe) :
  0 < getInitialLength (theCoordTransf st) ->
  fst (getTheta0 st) = 0%Z ->
  0 < E st * A st -> 0 < E st * Iz st -> 0 < E st * Iy st ->
  0 < G st * Jx st -> 0 <= G st * A st ->
  let st' := snd (getTheta0 st) in
  (0 <= fst (updateSectionData st'))%Z ->
  (0 <= fst (updateMaterialData (snd (updateSectionData st'))))%Z ->
  (0 < theta0 st' < PI / 2) /\
  exists kbm pb0,
    fst (kb st') = Some (kbm, pb0) /\ is_inverse (flexibility st') kbm.
Proof.
  intros HL Hok HEA HEIz HEIy HGJ HGA st' H1 H2.
  assert (Hadm : admissible st')
    by (apply getTheta0_admissible; assumption).
  split; [exact (proj1 (proj2 Hadm))|].
  destruct (kb_refresh_ok st' H1 H2 Hadm) as (kbm & pb0 & Hk).
  assert (Hf : fst (kb st') = Some (kbm, pb0)) by (rewrite Hk; reflexivity).
  exists kbm, pb0. split; [exact Hf|].
  exact (proj1 (kb_pb0 st' kbm pb0 Hf)).
Qed.

End SolvedGeometry.

(** ** Constructing and attaching the element *)

Section LifecycleFacts.
Context `{PipeBase} `{PipeHost}.






Lemma setDomain_inv theDomain ndm st st' :
  setDomain theDomain ndm st = Returns st' ->
  exists dom nodeI nodeJ zAxis,
    theDomain = Some dom /\ ndm = 3%Z /\
    getNode dom (fst (connectedExternalNodes st)) = Some nodeI /\
    getNode dom (snd (connectedExternalNodes st)) = Some nodeJ /\
    crossProduct (Normalize (vsub (getCrds nodeI) (center st)))
                 (Normalize (vsub (getCrds nodeJ) (getCrds nodeI)))
      = Some zAxis /\
    let st1 := set_theCoordTransf (set_theNodes st (nodeI, nodeJ))
                 (LinearCrdTransf3d zAxis) in
    let r1 := updateSectionData st1 in
    let r2 := updateMaterialData (snd r1) in
    ((fst r1 < 0)%Z /\ st' = snd r1) \/
    ((0 <= fst r1)%Z /\ (fst r2 < 0)%Z /\ st' = snd r2) \/
    ((0 <= fst r1)%Z /\ (0 <= fst r2)%Z /\
     exists base,
       ElasticBeam3d_setDomain dom (snd r2) = Returns base /\
       let st3 := mkCurvedPipe base (center (snd r2)) (radius (snd r2))
                    (theta0 (snd r2)) (tolWall (snd r2)) in
       getTheta0 st3 = (0%Z, st') /\ ~ geometryFails st3).
Proof.
  unfold setDomain.
  destruct theDomain as [dom|]; [|discriminate].
  destruct (Z.eqb_spec ndm 3) as [Hndm | Hndm]; cbn [negb]; [|discriminate].
  destruct (getNode dom (fst (connectedExternalNodes st))) as [nodeI|] eqn:HI;
    [|discriminate].
  destruct (getNode dom (snd (connectedExternalNodes st))) as [nodeJ|] eqn:HJ;
    [|discriminate].
  cbv zeta. cbn [center set_theNodes].
  destruct (crossProduct _ _) as [zAxis|] eqn:Hz; [|discriminate].
  intros Hret. exists dom, nodeI, nodeJ, zAxis.
  do 5 (split; [first [reflexivity | assumption]|]).
  cbv zeta. revert Hret.
  destruct (updateSectionData _) as [rc1 s1]. cbn [fst snd].
  destruct (Z.ltb_spec rc1 0) as [H1 | H1].
  { intros Hret. injection Hret as <-. left. split; [exact H1 | reflexivity]. }
  destruct (updateMaterialData s1) as [rc2 s2]. cbn [fst snd].
  destruct (Z.ltb_spec rc2 0) as [H2 | H2].
  { intros Hret. injection Hret as <-. right. left.
    split; [exact H1|]. split; [exact H2 | reflexivity]. }
  destruct (ElasticBeam3d_setDomain dom s2) as [base | code]; [|discriminate].
  set (st3 := mkCurvedPipe base (center s2) (radius s2) (theta0 s2) (tolWall s2)).
  destruct (getTheta0_cases st3) as [(Hf & Heq & _) | (Hnf & Heq)];
    rewrite Heq; cbn [Z.ltb Z.compare]; [discriminate|].
  intros Hret. injection Hret as <-. right. right.
  split; [exact H1|]. split; [exact H2|].
  exists base. split; [reflexivity|]. cbv zeta. fold st3.
  split; [exact Heq | exact Hnf].
Qed.

(** [setDomain] returns only for a domain that is there, in three
    dimensions, with both nodes of the element in it; in every other
    case, and when the transformation cannot be set up, it ends the
    process. *)
Theorem setDomain_preconditions (theDomain : option Domain) (ndm : Z)
  (st st' : CurvedPipe) :
  setDomain theDomain ndm st = Returns st' ->
  exists dom nodeI nodeJ,
    theDomain = Some dom /\ ndm = 3%Z /\
    getNode dom (fst (connectedExternalNodes st)) = Some nodeI /\
    getNode dom (snd (connectedExternalNodes st)) = Some nodeJ /\
    crossProduct (Normalize (vsub (getCrds nodeI) (center st)))
                 (Normalize (vsub (getCrds nodeJ) (getCrds nodeI))) <> None.
Proof.
  intros Hret.
  destruct (setDomain_inv _ _ _ _ Hret)
    as (dom & nodeI & nodeJ & zAxis & Hd & Hn & HI & HJ & Hz & _).
  exists dom, nodeI, nodeJ. rewrite Hz.
  repeat split; try assumption. discriminate.
Qed.

(** When [setDomain] returns after both refreshes have succeeded, the
    geometry of the element is solved and valid: positive radius, radii
    from the two nodes within the tolerance, half chord at most 0.99985
    times the radius, and theta0 the arcsine of their ratio.  It returns
    with the geometry unsolved only when a refresh has failed. *)
Theorem setDomain_geometry (theDomain : option Domain) (ndm : Z)
  (st st' : CurvedPipe) :
  setDomain theDomain ndm st = Returns st' ->
  (exists s, (fst (updateSectionData s) < 0)%Z /\ st' = snd (updateSectionData s)) \/
  (exists s, (fst (updateMaterialData s) < 0)%Z /\ st' = snd (updateMaterialData s)) \/
  (~ geometryFails st' /\ 0 < radius st' /\
   radius st' =
     (Norm (vsub (center st') (getCrds (fst (theNodes st')))) +
      Norm (vsub (center st') (getCrds (snd (theNodes st'))))) / 2 /\
   theta0 st' =
     asin (getInitialLength (theCoordTransf st') / 2 / radius st')).
Proof.
  intros Hret.
  destruct (setDomain_inv _ _ _ _ Hret)
    as (dom & nodeI & nodeJ & zAxis & _ & _ & _ & _ & _ & Hcases).
  cbv zeta in Hcases.
  destruct Hcases as [(H1 & ->) | [(H1 & H2 & ->) | (H1 & H2 & base & _ & Heq & Hnf)]].
  - left. eexists. split; [exact H1 | reflexivity].
  - right. left. eexists. split; [exact H2 | reflexivity].
  - right. right. cbv zeta in Heq.
    set (st3 := mkCurvedPipe base _ _ _ _) in *.
    destruct (getTheta0_cases st3) as [(Hf & _) | (_ & Heq')];
      [contradiction|].
    rewrite Heq' in Heq. injection Heq as <-.
    unfold geometryFails in *. cbv zeta in *.
    cbn [center theNodes theCoordTransf tolWall theSect radius theta0
         set_theta0 set_radius].
    split; [exact Hnf|].
    split; [apply Rnot_le_lt; intros Hle; apply Hnf; left; exact Hle|].
    split; reflexivity.
Qed.

End LifecycleFacts.

(** ** Reading the element command *)

Section CommandFacts.
Context `{PipeBase} `{PipeHost}.

Lemma getData_range_fuel (n : nat) :
  forall args T0 p tol cm T0' p' tol' cm',
    (length args <= n)%nat ->
    0 <= tol <= 1 -> (cm = 0 \/ cm = 1)%Z ->
    getData args T0 p tol cm = Some (T0', p', tol', cm') ->
    0 <= tol' <= 1 /\ (cm' = 0 \/ cm' = 1)%Z.
Proof.
  induction n as [|n IH]; intros args T0 p tol cm T0' p' tol' cm' Hlen Htol Hcm.
  - destruct args; [|simpl in Hlen; lia].
    simpl. intros Heq. injection Heq as <- <- <- <-. auto.
  - destruct args as [|theType rest].
    { simpl. intros Heq. injection Heq as <- <- <- <-. auto. }
    simpl in Hlen. cbn [getData].
    destruct (String.eqb theType "-T0").
    { destruct rest as [|v rest'].
      - simpl. intros Heq. injection Heq as <- <- <- <-. auto.
      - destruct (parseDouble v); [|discriminate].
        apply IH; [simpl in Hlen; lia | assumption | assumption]. }
    destruct (String.eqb theType "-p").
    { destruct rest as [|v rest'].
      - simpl. intros Heq. injection Heq as <- <- <- <-. auto.
      - destruct (parseDouble v); [|discriminate].
        apply IH; [simpl in Hlen; lia | assumption | assumption]. }
    destruct (String.eqb theType "-tolWall").
    { destruct rest as [|v rest'].
      - destruct (Rlt_dec tol 0); [discriminate|].
        destruct (Rgt_dec tol 1); [discriminate|].
        simpl. intros Heq. injection Heq as <- <- <- <-. auto.
      - destruct (parseDouble v) as [x|]; [|discriminate].
        destruct (Rlt_dec x 0); [discriminate|].
        destruct (Rgt_dec x 1); [discriminate|].
        apply IH; [simpl in Hlen; lia | lra | assumption]. }
    destruct (String.eqb theType "-cMass").
    { apply IH; [lia | assumption | right; reflexivity]. }
    apply IH; [lia | assumption | assumption].
Qed.

(** The loop over the optional arguments keeps the tolerance a fraction:
    started from a tolerance in [0, 1] and a mass flag of 0 or 1, every
    run that does not give up ends with a tolerance in [0, 1] and a
    mass flag of 0 or 1, whatever the arguments are. *)
Theorem getData_tolWall_range (args : list String.string) (T0 p tol : R)
  (cm : Z) (T0' p' tol' : R) (cm' : Z) :
  0 <= tol <= 1 -> (cm = 0 \/ cm = 1)%Z ->
  getData args T0 p tol cm = Some (T0', p', tol', cm') ->
  0 <= tol' <= 1 /\ (cm' = 0 \/ cm' = 1)%Z.
Proof.
  intros Htol Hcm Hget.
  exact (getData_range_fuel (length args) args T0 p tol cm T0' p' tol' cm'
           (Nat.le_refl _) Htol Hcm Hget).
Qed.



Lemma OPS_GetIntInput_firstn n : forall args,
  OPS_GetIntInput n args =
  match OPS_GetIntInput n (firstn n args) with
  | None => None
  | Some (vs, _) => Some (vs, skipn n args)
  end.
Proof.
  induction n as [|n IH]; intros args; [reflexivity|].
  destruct args as [|a args]; [reflexivity|].
  cbn [OPS_GetIntInput firstn skipn].
  destruct (parseInt a); [|reflexivity].
  rewrite (IH args).
  destruct (OPS_GetIntInput n (firstn n args)) as [[vs rs]|]; reflexivity.
Qed.

Lemma OPS_GetDoubleInput_firstn n : forall args,
  OPS_GetDoubleInput n args =
  match OPS_GetDoubleInput n (firstn n args) with
  | None => None
  | Some (vs, _) => Some (vs, skipn n args)
  end.
Proof.
  induction n as [|n IH]; intros args; [reflexivity|].
  destruct args as [|a args]; [reflexivity|].
  cbn [OPS_GetDoubleInput firstn skipn].
  destruct (parseDouble a); [|reflexivity].
  rewrite (IH args).
  destruct (OPS_GetDoubleInput n (firstn n args)) as [[vs rs]|]; reflexivity.
Qed.


End CommandFacts.

Section CommandOptions.
Context `{PipeBase} `{PipeHost}.

Lemma OPS_CurvedPipeElement_split (args : list String.string) :
  (8 <= length args)%nat ->
  OPS_CurvedPipeElement args =
  match OPS_GetIntInput 5 (firstn 5 (firstn 8 args)) with
  | None => Returns None
  | Some (iData, _) =>
    match OPS_GetDoubleInput 3 (skipn 5 (firstn 8 args)) with
    | None => Returns None
    | Some (c, _) =>
      match getData (skipn 8 args) 0 0 0.1 0 with
      | None => Returns None
      | Some (T0, pressure, tolWall, cMass) =>
        match getPipeSection (nth 4 iData 0%Z) with
        | None => Returns None
        | Some theSect =>
          match getPipeMaterial (nth 3 iData 0%Z) with
          | None => Returns None
          | Some theMat =>
            match CurvedPipe_new (nth 0 iData 0%Z) (nth 1 iData 0%Z)
                    (nth 2 iData 0%Z) theMat theSect c T0 pressure
                    cMass defaultTol with
            | Exits code => Exits code
            | Returns ele => Returns (Some ele)
            end
          end
        end
      end
    end
  end.
Proof.
  intros Hlen. unfold OPS_CurvedPipeElement.
  destruct (Nat.ltb_spec (length args) 8) as [Hlt | _]; [lia|].
  rewrite (OPS_GetIntInput_firstn 5 args).
  rewrite firstn_firstn. change (Nat.min 5 8) with 5%nat.
  destruct (OPS_GetIntInput 5 (firstn 5 args)) as [[iData r0]|]; [|reflexivity].
  rewrite (OPS_GetDoubleInput_firstn 3 (skipn 5 args)).
  rewrite firstn_skipn_comm. change (5 + 3)%nat with 8%nat.
  destruct (OPS_GetDoubleInput 3 (skipn 5 (firstn 8 args))) as [[c r1]|];
    [|reflexivity].
  rewrite skipn_skipn. change (3 + 5)%nat with 8%nat. reflexivity.
Qed.

(** The values given with [-T0] and [-tolWall] do not reach the element:
    two commands with the same eight leading arguments whose optional
    arguments are accepted with the same pressure and mass flag create
    the same element (or fail alike), whatever reference temperatures
    and tolerances they ask for. *)
Theorem OPS_CurvedPipeElement_options_unused
  (args1 args2 : list String.string) (T1 T2 p tol1 tol2 : R) (cm : Z) :
  (8 <= length args1)%nat -> (8 <= length args2)%nat ->
  firstn 8 args1 = firstn 8 args2 ->
  getData (skipn 8 args1) 0 0 0.1 0 = Some (T1, p, tol1, cm) ->
  getData (skipn 8 args2) 0 0 0.1 0 = Some (T2, p, tol2, cm) ->
  OPS_CurvedPipeElement args1 = OPS_CurvedPipeElement args2.
Proof.
  intros H1 H2 Hhead Hd1 Hd2.
  rewrite (OPS_CurvedPipeElement_split args1 H1).
  rewrite (OPS_CurvedPipeElement_split args2 H2).
  rewrite Hhead, Hd1, Hd2.
  destruct (OPS_GetIntInput 5 _) as [[iData r0]|]; [|reflexivity].
  destruct (OPS_GetDoubleInput 3 _) as [[c r1]|]; [|reflexivity].
  destruct (getPipeSection _) as [sect|]; [|reflexivity].
  destruct (getPipeMaterial _) as [mat|]; [|reflexivity].
  reflexivity.
Qed.

End CommandOptions.

(** ** The example, created and attached *)


Lemma bend_setDomain p :
  @setDomain bendBase bendHost (Some bendDomain) 3 (bendInit p)
  = Returns (bend p).
Proof.
  transitivity (let '(rc, st) := getTheta0 (bendInit p) in
                if (rc <? 0)%Z then @Exits CurvedPipe (-1)%Z else Returns st).
  - reflexivity.
  - rewrite bend_getTheta0. reflexivity.
Qed.

Ltac eval_strings :=
  cbn [getData OPS_GetIntInput OPS_GetDoubleInput parseInt parseDouble
       bendHost String.eqb Ascii.eqb Bool.eqb skipn firstn
       bendCommand bendCommandOptions].

Lemma bend_getData :
  @getData bendHost (skipn 8 bendCommand) 0 0 0.1 0 = Some (0, 2, 0.1, 0%Z).
Proof. eval_strings. reflexivity. Qed.

Lemma bend_getData_options :
  @getData bendHost (skipn 8 bendCommandOptions) 0 0 0.1 0
  = Some (20, 2, 0.5, 0%Z).
Proof.
  eval_strings.
  destruct (Rlt_dec 0.5 0) as [Hlt | _]; [lra|].
  destruct (Rgt_dec 0.5 1) as [Hgt | _]; [lra|].
  reflexivity.
Qed.


(** ** The properties at the example *)

Lemma flexibility_positive_definite_witness :
  admissible (bend 0) /\
  0 < quadForm (mget (flexibility (bend 0)))
        (fun i => if Nat.eqb i 0 then 1 else 0).
Proof.
  split; [apply bend_admissible|].
  apply (flexibility_positive_definite (bend 0)
           (fun i => if Nat.eqb i 0 then 1 else 0) (bend_admissible 0)).
  exists 0%nat. split; [lia | cbn; lra].
Defined.

Lemma bx_end_moments_witness :
  0 < getInitialLength (theCoordTransf (bendInit 0)) /\
  fst (getTheta0 (bendInit 0)) = 0%Z /\
  nth 1 (bx (snd (getTheta0 (bendInit 0)))
           (theta0 (snd (getTheta0 (bendInit 0))))) []
  = [0; 0; 1; 0; 0; 0].
Proof.
  assert (HL : 0 < getInitialLength (theCoordTransf (bendInit 0)))
    by (cbn [bendInit bendWith theCoordTransf getInitialLength bendTransf];
        lra).
  assert (Hok : fst (getTheta0 (bendInit 0)) = 0%Z)
    by (rewrite bend_getTheta0; reflexivity).
  split; [exact HL|]. split; [exact Hok|].
  exact (proj2 (bx_end_moments (bendInit 0) HL Hok)).
Defined.

Lemma Spx_at_nodes_witness :
  0 < getInitialLength (theCoordTransf (bendInit 0)) /\
  fst (getTheta0 (bendInit 0)) = 0%Z /\
  vget (Spx (snd (getTheta0 (bendInit 0)))
          (theta0 (snd (getTheta0 (bendInit 0))))) 1 = 0.
Proof.
  assert (HL : 0 < getInitialLength (theCoordTransf (bendInit 0)))
    by (cbn [bendInit bendWith theCoordTransf getInitialLength bendTransf];
        lra).
  assert (Hok : fst (getTheta0 (bendInit 0)) = 0%Z)
    by (rewrite bend_getTheta0; reflexivity).
  split; [exact HL|]. split; [exact Hok|].
  exact (proj1 (proj2 (Spx_at_nodes (bendInit 0) HL Hok))).
Defined.

Lemma kb_stiffness_symmetric_witness :
  exists kbm pb0,
    fst (@kb bendBase (bend 0)) = Some (kbm, pb0) /\ transpose kbm = kbm.
Proof.
  destruct (bend_kb_fst 0) as (kbm & pb0 & Hk & _).
  exists kbm, pb0. split; [exact Hk|].
  exact (proj1 (@kb_stiffness_symmetric bendBase (bend 0) kbm pb0 Hk)).
Defined.

Lemma kb_succeeds_witness :
  admissible (bend 2) /\
  exists kbm pb0,
    @kb bendBase (bend 2) = (Some (kbm, pb0), bend 2) /\
    is_inverse (flexibility (bend 2)) kbm /\ length pb0 = 6%nat.
Proof.
  split; [apply bend_admissible|].
  apply (@kb_succeeds bendBase (bend 2) (bend_admissible 2));
    cbn [updateSectionData updateMaterialData bendBase fst snd]; lia.
Defined.


Lemma queries_on_success_witness :
  exists kbm pb0,
    fst (@kb bendBase (bend 0)) = Some (kbm, pb0) /\
    length (q (snd (@kb bendBase (bend 0)))) = 6%nat /\
    q (snd (@getResistingForce bendBase (bend 0))) =
    vadd (mvmul kbm (getBasicTrialDisp (theCoordTransf (bend 0)))) pb0.
Proof.
  destruct (bend_kb_fst 0) as (kbm & pb0 & Hk & Hst).
  exists kbm, pb0. split; [exact Hk|].
  assert (Hq : length (q (snd (@kb bendBase (bend 0)))) = 6%nat)
    by (rewrite Hst; reflexivity).
  split; [exact Hq|].
  destruct (@queries_on_success bendBase (bend 0) kbm pb0 Hk Hq)
    as (_ & _ & _ & Hres & _).
  exact Hres.
Defined.


Lemma setDomain_preconditions_witness :
  @setDomain bendBase bendHost (Some bendDomain) 3 (bendInit 0)
    = Returns (bend 0) /\
  exists dom nodeI nodeJ,
    Some bendDomain = Some dom /\
    getNode dom 1 = Some nodeI /\ getNode dom 2 = Some nodeJ.
Proof.
  split; [apply bend_setDomain|].
  destruct (@setDomain_preconditions bendBase bendHost (Some bendDomain) 3
              (bendInit 0) (bend 0) (bend_setDomain 0))
    as (dom & nodeI & nodeJ & Hd & _ & HI & HJ & _).
  exists dom, nodeI, nodeJ. split; [exact Hd|]. split; [exact HI | exact HJ].
Defined.

Lemma setDomain_geometry_witness :
  @setDomain bendBase bendHost (Some bendDomain) 3 (bendInit 0)
    = Returns (bend 0) /\
  0 < radius (bend 0) /\
  theta0 (bend 0) =
    asin (getInitialLength (theCoordTransf (bend 0)) / 2 / radius (bend 0)).
Proof.
  split; [apply bend_setDomain|].
  destruct (@setDomain_geometry bendBase bendHost (Some bendDomain) 3
              (bendInit 0) (bend 0) (bend_setDomain 0))
    as [(s & Hs & _) | [(s & Hs & _) | (_ & Hr & _ & Ht)]].
  - cbn [updateSectionData bendBase fst] in Hs. lia.
  - cbn [updateMaterialData bendBase fst] in Hs. lia.
  - split; [exact Hr | exact Ht].
Defined.

Lemma getData_tolWall_range_witness :
  @getData bendHost (skipn 8 bendCommandOptions) 0 0 0.1 0
    = Some (20, 2, 0.5, 0%Z) /\
  0 <= 0.5 <= 1.
Proof.
  split; [apply bend_getData_options|].
  refine (proj1 (@getData_tolWall_range bendHost
                   (skipn 8 bendCommandOptions) 0 0 0.1 0 20 2 0.5 0
                   _ _ bend_getData_options)); [lra | left; reflexivity].
Defined.


Lemma OPS_CurvedPipeElement_options_unused_witness :
  (8 <= length bendCommandOptions)%nat /\
  firstn 8 bendCommandOptions = firstn 8 bendCommand /\
  @OPS_CurvedPipeElement bendHost bendCommandOptions
  = @OPS_CurvedPipeElement bendHost bendCommand.
Proof.
  assert (H1 : (8 <= length bendCommandOptions)%nat) by (cbn; lia).
  assert (H2 : (8 <= length bendCommand)%nat) by (cbn; lia).
  split; [exact H1|]. split; [reflexivity|].
  exact (@OPS_CurvedPipeElement_options_unused bendHost
           bendCommandOptions bendCommand 20 0 2 0.5 0.1 0%Z H1 H2 eq_refl
           bend_getData_options bend_getData).
Defined.

Lemma plw_balance_witness :
  wx (bend 0) = 0 /\ wy (bend 0) = 0 /\ wz (bend 0) = 0 /\
  plw (bend 0) = [0; 0; 0; 0; 0; 0].
Proof.
  split; [reflexivity|]. split; [reflexivity|]. split; [reflexivity|].
  destruct (plw_balance (bend 0)) as (_ & _ & _ & _ & Hz).
  exact (Hz eq_refl eq_refl eq_refl).
Defined.

Lemma getTheta0_then_kb_witness :
  fst (getTheta0 (bendInit 0)) = 0%Z /\
  (0 < theta0 (snd (getTheta0 (bendInit 0))) < PI / 2) /\
  exists kbm pb0,
    fst (@kb bendBase (snd (getTheta0 (bendInit 0)))) = Some (kbm, pb0) /\
    is_inverse (flexibility (snd (getTheta0 (bendInit 0)))) kbm.
Proof.
  assert (Hok : fst (getTheta0 (bendInit 0)) = 0%Z)
    by (rewrite bend_getTheta0; reflexivity).
  split; [exact Hok|].
  apply (@getTheta0_then_kb bendBase (bendInit 0)); try exact Hok;
    cbn [bendInit bendWith theCoordTransf getInitialLength bendTransf
         E A G Jx Iy Iz updateSectionData updateMaterialData bendBase
         fst snd]; try lra; lia.
Defined.
